(** * Patent text pipeline of [patent_generator_colab.py]

    A shallow embedding of the text core of the generator: the figure
    catalog and the context resolver, the figure reference repair
    ([fix_all_figure_references]), the normalizer ([clean_text]), the
    section segmenter ([parse_sections]) and the claims extractor
    ([extract_claims]).

    Texts are Rocq [string]s, that is sequences of characters with code
    points 0..255.  The character classes ([\s], [\d], [\w]) and the case
    mappings are those of Python's [str] on that range.  Two characters of
    the source patterns lie outside the range (the en dash of
    [PART\s*\d+\s*[-–:]] and the em dash of the claim separator class); no
    modelled text contains them, so the classes are written without them.

    Python's [re] module is modelled by a backtracking matcher over a
    regular expression syntax tree: ordered alternation, greedy and lazy
    bounded repetition, capture groups, back-references, look-ahead and
    anchors.  Every pattern of the source is transcribed to that syntax
    with the source text of the pattern next to it. *)

From Stdlib Require Import Bool Arith NArith ZArith Lia List Sorted.
From Stdlib Require Import Ascii String DecimalString.
Import ListNotations.
Open Scope string_scope.
Open Scope nat_scope.

(* ================================================================== *)
(** ** Characters *)

Module Chars.

Definition code (c : ascii) : N := N_of_ascii c.

Definition between (lo hi : N) (c : ascii) : bool :=
  (N.leb lo (code c) && N.leb (code c) hi)%bool.

Definition is_code (n : N) (c : ascii) : bool := N.eqb (code c) n.

(** [str.isspace] and [\s] on code points 0..255. *)
Definition is_space (c : ascii) : bool :=
  between 9 13 c || between 28 32 c || is_code 133 c || is_code 160 c.

(** [\d]: the decimal digits. *)
Definition is_digit (c : ascii) : bool := between 48 57 c.

Definition is_upper (c : ascii) : bool := between 65 90 c.
Definition is_lower (c : ascii) : bool := between 97 122 c.
Definition is_letter (c : ascii) : bool := is_upper c || is_lower c.

(** [\w]: [str.isalnum] or the underscore. *)
Definition is_word (c : ascii) : bool :=
  is_digit c || is_letter c || is_code 95 c
  || is_code 170 c || is_code 178 c || is_code 179 c || is_code 181 c
  || is_code 185 c || is_code 186 c || between 188 190 c
  || between 192 214 c || between 216 246 c || between 248 255 c.

(** [str.lower] on one character. *)
Definition lower_char (c : ascii) : ascii :=
  if is_upper c || between 192 214 c || between 216 222 c
  then ascii_of_N (code c + 32) else c.

(** [str.upper] on one character.  The sharp s becomes two letters; the
    images of the micro sign and of y with diaeresis lie outside the
    range and are no letters of any pattern, so these two are kept. *)
Definition upper_char (c : ascii) : string :=
  if is_lower c || between 224 246 c || between 248 254 c
  then String (ascii_of_N (code c - 32)) EmptyString
  else if is_code 223 c then "SS"
  else String c EmptyString.

Definition newline : ascii := ascii_of_N 10.
Definition tab : ascii := ascii_of_N 9.

End Chars.
Import Chars.

(* ================================================================== *)
(** ** Strings: the [str] operations the program uses *)

Module Str.

Definition len (s : string) : nat := String.length s.

Fixpoint lower (s : string) : string :=
  match s with
  | EmptyString => EmptyString
  | String c t => String (lower_char c) (lower t)
  end.

Fixpoint upper (s : string) : string :=
  match s with
  | EmptyString => EmptyString
  | String c t => upper_char c ++ upper t
  end.

(** [s[:n]] *)
Fixpoint take (n : nat) (s : string) : string :=
  match n, s with
  | S k, String c t => String c (take k t)
  | _, _ => EmptyString
  end.

(** [s[n:]] *)
Fixpoint drop (n : nat) (s : string) : string :=
  match n, s with
  | S k, String _ t => drop k t
  | _, _ => s
  end.

(** [s[i:j]] for [0 <= i], [0 <= j]. *)
Definition slice (i j : nat) (s : string) : string := take (j - i) (drop i s).

(** [s.startswith(p)], returning what follows the prefix. *)
Fixpoint after_prefix (p s : string) : option string :=
  match p, s with
  | EmptyString, _ => Some s
  | String a p', String b s' => if Ascii.eqb a b then after_prefix p' s' else None
  | String _ _, EmptyString => None
  end.

Definition starts_with (p s : string) : bool :=
  match after_prefix p s with Some _ => true | None => false end.

(** [needle in hay] *)
Fixpoint contains (needle hay : string) : bool :=
  starts_with needle hay ||
  match hay with
  | EmptyString => false
  | String _ t => contains needle t
  end.

(** [s.lstrip()] *)
Fixpoint lstrip (s : string) : string :=
  match s with
  | String c t => if is_space c then lstrip t else s
  | EmptyString => EmptyString
  end.

(** [s.rstrip()] *)
Fixpoint rstrip (s : string) : string :=
  match s with
  | EmptyString => EmptyString
  | String c t =>
      match rstrip t with
      | EmptyString => if is_space c then EmptyString else String c EmptyString
      | r => String c r
      end
  end.

(** [s.strip()] *)
Definition strip (s : string) : string := rstrip (lstrip s).

(** [s.endswith(p)] *)
Definition ends_with (p s : string) : bool :=
  String.eqb (drop (len s - len p) s) p && (len p <=? len s).

(** [s.split('\n')] *)
Fixpoint split_lines (s : string) : list string :=
  match s with
  | EmptyString => [EmptyString]
  | String c t =>
      if Ascii.eqb c newline then EmptyString :: split_lines t
      else match split_lines t with
           | l :: ls => String c l :: ls
           | [] => [String c EmptyString]
           end
  end.

(** ['\n'.join(ls)] *)
Fixpoint join_lines (ls : list string) : string :=
  match ls with
  | [] => EmptyString
  | [l] => l
  | l :: rest => l ++ String newline (join_lines rest)
  end.

(** [c * n] for a one-character string *)
Fixpoint replicate (n : nat) (c : ascii) : string :=
  match n with
  | 0 => EmptyString
  | S k => String c (replicate k c)
  end.

(** [int(s)] on a string of decimal digits. *)
Definition digit_value (c : ascii) : N := code c - 48.

Definition int_of (s : string) : N :=
  (fix go (acc : N) (s : string) : N :=
     match s with
     | EmptyString => acc
     | String c t => go (acc * 10 + digit_value c)%N t
     end) 0%N s.

(** [str(n)] *)
Definition of_int (n : N) : string := NilEmpty.string_of_uint (N.to_uint n).

End Str.
Import Str.

(* ================================================================== *)
(** ** Regular expressions and the backtracking matcher *)

Module Re.

Inductive regex : Type :=
| Eps                                              (* the empty pattern *)
| Chr (p : ascii -> bool)                          (* one character of a class *)
| Seq (a b : regex)                                (* [ab] *)
| Alt (a b : regex)                                (* [a|b], [a] first *)
| Rep (greedy : bool) (lo : nat) (hi : option nat) (a : regex)   (* [a{lo,hi}] *)
| Grp (n : nat) (a : regex)                        (* capture group [n] *)
| Bref (n : nat)                                   (* [\n] *)
| Look (positive : bool) (a : regex)               (* [(?=a)] and [(?!a)] *)
| Bos                                              (* [^] without MULTILINE *)
| Eos                                              (* [\Z] *)
| Eol.                                             (* [$] without MULTILINE *)

(** The matcher's state: the position in the text, the text from there
    on, and the captured groups, the latest first. *)
Record mstate : Type := MS {
  ms_pos : nat;
  ms_rest : string;
  ms_caps : list (nat * string)
}.

Definition cont : Type := mstate -> option mstate.

Fixpoint cap_lookup (n : nat) (caps : list (nat * string)) : option string :=
  match caps with
  | [] => None
  | (m, g) :: rest => if n =? m then Some g else cap_lookup n rest
  end.

Definition below (cnt : nat) (hi : option nat) : bool :=
  match hi with
  | None => true
  | Some h => cnt <? h
  end.

(** The loop of a repetition.  [body] matches one more copy, which must
    move the position forward; [k] is what follows the repetition.  Every
    round consumes a character, so a fuel of one more than the length of
    the rest is never used up. *)
Fixpoint rep_loop (body : mstate -> cont -> option mstate)
    (greedy : bool) (lo : nat) (hi : option nat) (k : cont)
    (fuel cnt : nat) (s : mstate) {struct fuel} : option mstate :=
  match fuel with
  | 0 => None
  | S fuel' =>
      if greedy then
        match (if below cnt hi
               then body s (fun s1 =>
                      if ms_pos s <? ms_pos s1
                      then rep_loop body greedy lo hi k fuel' (S cnt) s1
                      else None)
               else None) with
        | Some r => Some r
        | None => if lo <=? cnt then k s else None
        end
      else
        match (if lo <=? cnt then k s else None) with
        | Some r => Some r
        | None =>
            if below cnt hi
            then body s (fun s1 =>
                   if ms_pos s <? ms_pos s1
                   then rep_loop body greedy lo hi k fuel' (S cnt) s1
                   else None)
            else None
        end
  end.

Fixpoint run (r : regex) (s : mstate) (k : cont) {struct r} : option mstate :=
  match r with
  | Eps => k s
  | Chr p =>
      match ms_rest s with
      | String c t => if p c then k (MS (S (ms_pos s)) t (ms_caps s)) else None
      | EmptyString => None
      end
  | Seq a b => run a s (fun s1 => run b s1 k)
  | Alt a b =>
      match run a s k with
      | Some x => Some x
      | None => run b s k
      end
  | Rep g lo hi a =>
      rep_loop (run a) g lo hi k (S (len (ms_rest s))) 0 s
  | Grp n a =>
      run a s (fun s1 =>
        k (MS (ms_pos s1) (ms_rest s1)
              ((n, take (ms_pos s1 - ms_pos s) (ms_rest s)) :: ms_caps s1)))
  | Bref n =>
      match cap_lookup n (ms_caps s) with
      | Some g =>
          match after_prefix g (ms_rest s) with
          | Some t => k (MS (ms_pos s + len g) t (ms_caps s))
          | None => None
          end
      | None => None
      end
  | Look positive a =>
      match run a s Some with
      | Some _ => if positive then k s else None
      | None => if positive then None else k s
      end
  | Bos => if ms_pos s =? 0 then k s else None
  | Eos =>
      match ms_rest s with
      | EmptyString => k s
      | _ => None
      end
  | Eol =>
      match ms_rest s with
      | EmptyString => k s
      | String c EmptyString => if Ascii.eqb c newline then k s else None
      | _ => None
      end
  end.

(** A match object: [m.start()], [m.end()] and the groups. *)
Record rmatch : Type := RM {
  m_start : nat;
  m_end : nat;
  m_caps : list (nat * string)
}.

(** [m.group(n)] for a group that took part in the match. *)
Definition group (m : rmatch) (n : nat) : string :=
  match cap_lookup n (m_caps m) with
  | Some g => g
  | None => EmptyString
  end.

(** The pattern tried at one position: [pos] is the index of the first
    character of [rest] in the whole text. *)
Definition match_at (r : regex) (pos : nat) (rest : string) : option rmatch :=
  match run r (MS pos rest []) Some with
  | Some e => Some (RM pos (ms_pos e) (ms_caps e))
  | None => None
  end.

(** [re.match(r, text)] *)
Definition re_match (r : regex) (text : string) : option rmatch :=
  match_at r 0 text.

(** [re.search(r, text)]: the leftmost match. *)
Fixpoint search_from (r : regex) (pos : nat) (s : string) : option rmatch :=
  match match_at r pos s with
  | Some m => Some m
  | None =>
      match s with
      | String _ t => search_from r (S pos) t
      | EmptyString => None
      end
  end.

Definition re_search (r : regex) (text : string) : option rmatch :=
  search_from r 0 text.

(** [re.finditer(r, text)]: the matches from left to right, none
    overlapping another.  [skip] counts the characters still inside the
    match found last.  No pattern of the program matches the empty
    string; an empty match is recorded and the scan moves on by one
    character. *)
Fixpoint scan (r : regex) (pos : nat) (s : string) (skip : nat) {struct s}
  : list rmatch :=
  match skip with
  | S skip' =>
      match s with
      | String _ t => scan r (S pos) t skip'
      | EmptyString => []
      end
  | 0 =>
      match match_at r pos s with
      | Some m =>
          m :: match s with
               | String _ t => scan r (S pos) t (m_end m - pos - 1)
               | EmptyString => []
               end
      | None =>
          match s with
          | String _ t => scan r (S pos) t 0
          | EmptyString => []
          end
      end
  end.

Definition re_finditer (r : regex) (text : string) : list rmatch :=
  scan r 0 text 0.

(** [re.sub(r, repl, text)] with a function for [repl].  The function
    also receives the text searched, which the closures of the program
    read through the variable they close over. *)
Fixpoint sub_from (r : regex) (repl : string -> rmatch -> string)
    (whole : string) (pos : nat) (s : string) (skip : nat) {struct s} : string :=
  match skip with
  | S skip' =>
      match s with
      | String _ t => sub_from r repl whole (S pos) t skip'
      | EmptyString => EmptyString
      end
  | 0 =>
      match match_at r pos s with
      | Some m =>
          repl whole m ++
          match s with
          | String c t =>
              if m_end m =? pos
              then String c (sub_from r repl whole (S pos) t 0)
              else sub_from r repl whole (S pos) t (m_end m - pos - 1)
          | EmptyString => EmptyString
          end
      | None =>
          match s with
          | String c t => String c (sub_from r repl whole (S pos) t 0)
          | EmptyString => EmptyString
          end
      end
  end.

Definition re_sub (r : regex) (repl : string -> rmatch -> string)
    (text : string) : string :=
  sub_from r repl text 0 text 0.

(** *** Pattern syntax *)

Definition ch (c : ascii) : regex := Chr (Ascii.eqb c).

(** A letter under [re.IGNORECASE]. *)
Definition ich (c : ascii) : regex :=
  Chr (fun x => Ascii.eqb (lower_char x) (lower_char c)).

Fixpoint lit (s : string) : regex :=
  match s with
  | EmptyString => Eps
  | String c EmptyString => ch c
  | String c t => Seq (ch c) (lit t)
  end.

Fixpoint ilit (s : string) : regex :=
  match s with
  | EmptyString => Eps
  | String c EmptyString => ich c
  | String c t => Seq (ich c) (ilit t)
  end.

Definition ws : regex := Chr is_space.          (* [\s] *)
Definition digit : regex := Chr is_digit.       (* [\d] *)
Definition wordc : regex := Chr is_word.        (* [\w] *)
Definition star (a : regex) : regex := Rep true 0 None a.
Definition plus (a : regex) : regex := Rep true 1 None a.
Definition opt (a : regex) : regex := Rep true 0 (Some 1) a.
Definition one_of (s : string) : regex :=
  Chr (fun c => contains (String c EmptyString) s).
Definition none_of (s : string) : regex :=
  Chr (fun c => negb (contains (String c EmptyString) s)).

End Re.
Import Re.

Declare Scope re_scope.
Delimit Scope re_scope with re.
Infix ";;" := Seq (at level 61, right associativity) : re_scope.
Infix "<|>" := Alt (at level 62, right associativity) : re_scope.
(* ================================================================== *)
(** ** The figure catalog (CELL 4) *)

Record figure : Type := Figure {
  num : N;
  label : string;
  title : string;
  desc : string;
  keywords : list string
}.

Definition FIGURES : list figure := [
  Figure 1 "FIG. 1" "System Architecture Overview"
    "Complete Semantic Provenance Intelligence (SPI) system showing multi-modal analysis pipelines, semantic fingerprint generation engine, Creative QC module, and rights management integration."
    ["system architecture"; "architecture overview"; "spi system"; "complete system"; "overall system"; "main system"; "overall architecture"; "system overview"; "high-level"; "system diagram"];
  Figure 2 "FIG. 2" "Processing Pipeline"
    "End-to-end media processing workflow from content ingestion through transcription, semantic analysis, fingerprint generation, and result delivery."
    ["processing pipeline"; "pipeline"; "workflow"; "end-to-end"; "process flow"; "data flow"; "ingestion"; "transcription"; "media processing"; "content processing"];
  Figure 3 "FIG. 3" "Semantic DNA Fingerprint Structure"
    "768-dimensional combined Semantic DNA Fingerprint showing six 128-dimensional component vectors (Narrative, Visual, Auditory, Temporal, Emotional, Semantic Density)."
    ["semantic dna"; "fingerprint"; "768"; "component vector"; "combined vector"; "dna structure"; "128-dimensional"; "six vectors"; "fingerprint structure"; "vector structure"; "semantic fingerprint"];
  Figure 4 "FIG. 4" "Narrative Vector Extraction"
    "Three-act structure detection, character arc mapping, conflict progression analysis, and thematic element identification process."
    ["narrative"; "three-act"; "character arc"; "story structure"; "plot"; "thematic"; "narrative vector"; "story analysis"; "conflict progression"; "narrative extraction"];
  Figure 5 "FIG. 5" "Visual Grammar Analysis"
    "Visual content assessment including composition scoring, color palette extraction, motion dynamics analysis, and stylistic feature detection."
    ["visual grammar"; "visual analysis"; "composition"; "color palette"; "visual feature"; "image analysis"; "visual vector"; "motion dynamics"; "stylistic"; "visual content"];
  Figure 6 "FIG. 6" "Auditory Signature Extraction"
    "Audio analysis pipeline showing speech prosody analysis, music feature extraction, and soundscape profiling components."
    ["auditory"; "audio"; "prosody"; "soundscape"; "speech"; "music feature"; "audio analysis"; "sound"; "auditory vector"; "audio extraction"; "speech analysis"];
  Figure 7 "FIG. 7" "Temporal Rhythm Analysis"
    "Scene transition detection, pacing measurement, shot duration analysis, and temporal structure extraction methodology."
    ["temporal"; "rhythm"; "scene transition"; "pacing"; "shot"; "timing"; "temporal vector"; "rhythm analysis"; "shot duration"; "temporal structure"; "time-based"; "temporal rhythm"];
  Figure 8 "FIG. 8" "Emotional Trajectory Mapping"
    "Valence-arousal-dominance (VAD) model implementation for tracking emotional progression with peak and transition detection."
    ["emotional"; "trajectory"; "valence"; "arousal"; "dominance"; "vad"; "sentiment"; "emotional vector"; "emotion tracking"; "emotional progression"; "emotional mapping"; "affect"; "mood"];
  Figure 9 "FIG. 9" "Creative QC Parameter Taxonomy"
    "Complete 33-parameter assessment framework organized across seven categories: Story, Character, Emotion, Platform, Brand, Risk, and Craft."
    ["creative qc"; "parameter"; "33"; "taxonomy"; "assessment"; "quality control"; "seven categories"; "qc parameter"; "quality assessment"; "parameter framework"; "33 parameters"];
  Figure 10 "FIG. 10" "Complete SPI Workflow"
    "Full data flow diagram from media upload through AI provider integration, parallel analysis execution, and result delivery."
    ["complete workflow"; "full workflow"; "spi workflow"; "data flow diagram"; "full system"; "ai provider"; "parallel analysis"; "result delivery"; "complete spi"];
  Figure 11 "FIG. 11" "Multi-Modal Fusion Architecture"
    "Attention-based mechanism for combining visual, audio, and textual semantic representations into unified fingerprints."
    ["multi-modal"; "fusion"; "attention"; "cross-modal"; "multimodal"; "combining"; "attention-based"; "unified fingerprint"; "modal fusion"; "cross-modal attention"];
  Figure 12 "FIG. 12" "Database Schema"
    "PostgreSQL with pgvector extension showing tables for semantic fingerprints, QC results, and content metadata with vector similarity indexes."
    ["database"; "schema"; "postgresql"; "pgvector"; "storage"; "data model"; "vector index"; "database schema"; "data storage"; "similarity index"];
  Figure 13 "FIG. 13" "API Integration Layer"
    "REST API endpoint specifications, webhook configurations, and external system integration patterns."
    ["api"; "endpoint"; "webhook"; "rest"; "integration"; "interface"; "api layer"; "rest api"; "external integration"; "api specification"];
  Figure 14 "FIG. 14" "Deployment Architecture"
    "Cloud-native deployment topology with Kubernetes orchestration, auto-scaling, and load balancing configurations."
    ["deployment"; "cloud"; "kubernetes"; "scaling"; "infrastructure"; "hosting"; "cloud-native"; "auto-scaling"; "load balancing"; "deployment topology"];
  Figure 15 "FIG. 15" "Security Framework"
    "Multi-layer security architecture including rate limiting, adversarial detection, and role-based access control."
    ["security"; "anti-abuse"; "adversarial"; "rate limit"; "access control"; "authentication"; "security framework"; "rbac"; "security layer"; "abuse prevention"];
  Figure 16 "FIG. 16" "Copyright Automation Engine"
    "Rights ledger integration showing content identification, smart contract licensing, and royalty distribution tracking."
    ["copyright"; "rights"; "ledger"; "licensing"; "royalty"; "drm"; "rights ledger"; "smart contract"; "content identification"; "royalty distribution"];
  Figure 17 "FIG. 17" "Drift Detection and Calibration"
    "Continuous model monitoring system showing drift quantification, alert thresholds, and automated recalibration triggers."
    ["drift"; "calibration"; "monitoring"; "baseline"; "recalibration"; "model drift"; "drift detection"; "drift quantification"; "alert threshold"; "model monitoring"; "drift graphics"; "semantic drift"]
].
(* ================================================================== *)
(** ** The context resolver and the reference repair (CELL 5) *)

(** The state of the two nested loops of [get_figure_number_from_context]:
    [(best_fig, best_score)]. *)
Definition best : Type := (N * nat)%type.

(** The body of the inner loop, for one keyword of the figure [fig_num]. *)
Definition score_keyword (context_lower : string) (fig_num : N)
    (b : best) (keyword : string) : best :=
  if contains keyword context_lower then
    let score := len keyword * 2 in
    let score :=
      if contains (" " ++ keyword ++ " ") (" " ++ context_lower ++ " ")
      then score + 5 else score in
    if snd b <? score then (fig_num, score) else b
  else b.

(** The body of the outer loop, for one catalog entry. *)
Definition score_figure (context_lower : string) (b : best) (fig : figure)
  : best :=
  fold_left (score_keyword context_lower (num fig)) (keywords fig) b.

Definition get_figure_number_from_context (context_text : string) : N :=
  let context_lower := lower context_text in
  fst (fold_left (score_figure context_lower) FIGURES (1%N, 0)).

Module Repair.
Open Scope re_scope.

Definition dot : regex := ch ".".
Definition FIG : regex := ilit "FIG".           (* [FIG] under IGNORECASE *)
Definition FIG_cs : regex := lit "FIG".         (* [FIG], case-sensitive *)
Definition d12 : regex := Rep true 1 (Some 2) digit.   (* [\d{1,2}] *)
Definition ws2 : regex := Rep true 2 None ws.          (* [\s{2,}] *)

(** The template [r'FIG. \1'] and its variants. *)
Definition fig_group1 (suffix : string) : string -> rmatch -> string :=
  fun _ m => "FIG. " ++ group m 1 ++ suffix.
Definition constant (s : string) : string -> rmatch -> string :=
  fun _ _ => s.

(** STEP 0 and STEP 9: [FIG\.?\s+FIG\.?\s*(\d+)] *)
Definition dup_fig_number : regex :=
  FIG ;; opt dot ;; plus ws ;; FIG ;; opt dot ;; star ws ;; Grp 1 (plus digit).
(** STEP 0: [FIG\s+FIG\s+] *)
Definition dup_fig_space : regex := FIG ;; plus ws ;; FIG ;; plus ws.
(** STEP 1: [FIG\.?\s*(\d{1,2})(?:\s*\.\s*\d+)+\.?] *)
Definition malformed_many : regex :=
  FIG ;; opt dot ;; star ws ;; Grp 1 d12 ;;
  plus (star ws ;; dot ;; star ws ;; plus digit) ;; opt dot.
(** STEP 2: [FIG\.?\s*(\d{1,2})\s*\.\s*\d+(?!\d)] *)
Definition malformed_two : regex :=
  FIG ;; opt dot ;; star ws ;; Grp 1 d12 ;; star ws ;; dot ;; star ws ;;
  plus digit ;; Look false digit.

(** [(?:as\s+)?] followed by a verb, [\s+in]: the phrase of a reference. *)
Definition as_opt : regex := opt (ilit "as" ;; plus ws).
Definition phrase_in (verb : string) : regex :=
  as_opt ;; ilit verb ;; plus ws ;; ilit "in".

(** STEP 3: the patterns for empty references, each with its group. *)
Definition empty_patterns : list (regex * nat) := [
  (* ((?:as\s+)?shown\s+in)\s*\. *)
  (Grp 1 (phrase_in "shown") ;; star ws ;; dot, 1);
  (* ((?:as\s+)?illustrated\s+in)\s*\. *)
  (Grp 1 (phrase_in "illustrated") ;; star ws ;; dot, 1);
  (* ((?:as\s+)?depicted\s+in)\s*\. *)
  (Grp 1 (phrase_in "depicted") ;; star ws ;; dot, 1);
  (* ((?:as\s+)?displayed\s+in)\s*\. *)
  (Grp 1 (phrase_in "displayed") ;; star ws ;; dot, 1);
  (* ((?:as\s+)?presented\s+in)\s*\. *)
  (Grp 1 (phrase_in "presented") ;; star ws ;; dot, 1);
  (* (represented\s+(?:visually\s+)?in)\s*\. *)
  (Grp 1 (ilit "represented" ;; plus ws ;; opt (ilit "visually" ;; plus ws) ;;
          ilit "in") ;; star ws ;; dot, 1);
  (* ((?:These\s+are\s+)?(?:represented|shown)\s+visually\s+in)\s*\. *)
  (Grp 1 (opt (ilit "These" ;; plus ws ;; ilit "are" ;; plus ws) ;;
          (ilit "represented" <|> ilit "shown") ;; plus ws ;;
          ilit "visually" ;; plus ws ;; ilit "in") ;; star ws ;; dot, 1);
  (* ((?:A\s+)?visual\s+reference\s+(?:for\s+\w+\s+)?is\s+shown\s+in)\s*\. *)
  (Grp 1 (opt (ilit "A" ;; plus ws) ;; ilit "visual" ;; plus ws ;;
          ilit "reference" ;; plus ws ;;
          opt (ilit "for" ;; plus ws ;; plus wordc ;; plus ws) ;;
          ilit "is" ;; plus ws ;; ilit "shown" ;; plus ws ;; ilit "in") ;;
   star ws ;; dot, 1);
  (* ((?:See|Refer\s+to))\s*\. *)
  (Grp 1 (ilit "See" <|> (ilit "Refer" ;; plus ws ;; ilit "to")) ;;
   star ws ;; dot, 1);
  (* (in\s+FIG\.?)\s*\. *)
  (Grp 1 (ilit "in" ;; plus ws ;; FIG ;; opt dot) ;; star ws ;; dot, 1)
].

(** [m.group(0)] *)
Definition group0 (text : string) (m : rmatch) : string :=
  slice (m_start m) (m_end m) text.

(** STEP 3: [context_replace]; [text] is the text the substitution runs
    on.  The three branches of the source build the same string.  Here
    and below [max(0, i - k)] is the subtraction of natural numbers. *)
Definition context_replace (prefix_group : nat) (text : string) (m : rmatch)
  : string :=
  let prefix := if prefix_group =? 0 then group0 text m
                else group m prefix_group in
  let start := m_start m - 400 in
  let end_ := Nat.min (len text) (m_end m + 100) in
  let context := slice start end_ text in
  let fig_num := get_figure_number_from_context context in
  let prefix_clean := rstrip prefix in
  if ends_with " in" prefix_clean then
    prefix_clean ++ " FIG. " ++ of_int fig_num ++ "."
  else if ends_with " to" prefix_clean then
    prefix_clean ++ " FIG. " ++ of_int fig_num ++ "."
  else
    prefix_clean ++ " FIG. " ++ of_int fig_num ++ ".".

Definition step3 (text : string) : string :=
  fold_left (fun text pg => re_sub (fst pg) (context_replace (snd pg)) text)
            empty_patterns text.

(** STEP 4: [FIG\.?\s*(\d{1,2})\s+and\s*\.] and [fix_and_empty] *)
Definition fig_and_empty : regex :=
  FIG ;; opt dot ;; star ws ;; Grp 1 d12 ;; plus ws ;; ilit "and" ;;
  star ws ;; dot.

Definition fix_and_empty (text : string) (m : rmatch) : string :=
  let first_fig := int_of (group m 1) in
  let start := m_start m - 300 in
  let context := slice start (m_end m) text in
  let second_fig := get_figure_number_from_context context in
  let second_fig :=
    if N.eqb second_fig first_fig then N.min (first_fig + 1) 17
    else second_fig in
  "FIG. " ++ of_int first_fig ++ " and FIG. " ++ of_int second_fig ++ ".".

(** STEP 5: [Figure\s+(\d{1,2})] *)
Definition figure_word : regex := ilit "Figure" ;; plus ws ;; Grp 1 d12.

(** STEP 6: [FIG\s+(\d)], [FIG\.(\d)], [FIG\.\s{2,}(\d)], case-sensitive *)
Definition fig_space_digit : regex := FIG_cs ;; plus ws ;; Grp 1 digit.
Definition fig_dot_digit : regex := FIG_cs ;; dot ;; Grp 1 digit.
Definition fig_dot_spaces_digit : regex := FIG_cs ;; dot ;; ws2 ;; Grp 1 digit.

(** STEP 7: [FIG\.\s*\.(?!\d)] and [fix_standalone_fig] *)
Definition standalone_fig : regex :=
  FIG ;; dot ;; star ws ;; dot ;; Look false digit.

Definition fix_standalone_fig (text : string) (m : rmatch) : string :=
  let start := m_start m - 300 in
  let context := slice start (m_start m) text in
  let fig_num := get_figure_number_from_context context in
  "FIG. " ++ of_int fig_num ++ ".".

(** STEP 8: [FIG\.\s*(\d+)] and [validate_fig] *)
Definition fig_number : regex := FIG ;; dot ;; star ws ;; Grp 1 (plus digit).

Definition validate_num (num : N) : N :=
  if (num <? 1)%N then 1%N
  else if (17 <? num)%N then ((num - 1) mod 17 + 1)%N
  else num.

Definition validate_fig (text : string) (m : rmatch) : string :=
  let num := int_of (group m 1) in
  "FIG. " ++ of_int (validate_num num).

(** STEP 9: [FIG\s+FIG] *)
Definition dup_fig : regex := FIG ;; plus ws ;; FIG.

(** STEP 10: [FIG\s*\.\s*(\d+)], case-sensitive *)
Definition fig_loose : regex :=
  FIG_cs ;; star ws ;; dot ;; star ws ;; Grp 1 (plus digit).

(** STEP 11: [fix_implicit_reference].  Both groups take part in every
    match of the patterns below, so [m.lastindex] is 2. *)
Definition fix_implicit_reference (text : string) (m : rmatch) : string :=
  let full_match := group0 text m in
  let phrase := group m 1 in
  let following := group m 2 in
  if contains "FIG" (take 20 (upper following)) then full_match
  else
    let start := m_start m - 500 in
    let end_ := Nat.min (len text) (m_end m + 200) in
    let context := slice start end_ text in
    let fig_num := get_figure_number_from_context context in
    phrase ++ " FIG. " ++ of_int fig_num ++ ", " ++ lstrip following.

Definition the_word : regex := ilit "the" ;; plus ws ;; plus wordc.
Definition letters_word : regex :=
  (* [[a-z]+\s+\w+] under IGNORECASE *)
  plus (Chr is_letter) ;; plus ws ;; plus wordc.

Definition implicit_patterns : list regex := [
  (* ((?:as\s+)?illustrated\s+in)\s+(the\s+\w+) *)
  Grp 1 (phrase_in "illustrated") ;; plus ws ;; Grp 2 the_word;
  (* ((?:as\s+)?shown\s+in)\s+(the\s+\w+) *)
  Grp 1 (phrase_in "shown") ;; plus ws ;; Grp 2 the_word;
  (* ((?:as\s+)?depicted\s+in)\s+(the\s+\w+) *)
  Grp 1 (phrase_in "depicted") ;; plus ws ;; Grp 2 the_word;
  (* ((?:as\s+)?displayed\s+in)\s+(the\s+\w+) *)
  Grp 1 (phrase_in "displayed") ;; plus ws ;; Grp 2 the_word;
  (* (represented\s+visually\s+in)\s+(the\s+\w+) *)
  Grp 1 (ilit "represented" ;; plus ws ;; ilit "visually" ;; plus ws ;;
         ilit "in") ;; plus ws ;; Grp 2 the_word;
  (* ((?:as\s+)?illustrated\s+in)\s+([a-z]+\s+\w+) *)
  Grp 1 (phrase_in "illustrated") ;; plus ws ;; Grp 2 letters_word;
  (* ((?:as\s+)?shown\s+in)\s+([a-z]+\s+\w+) *)
  Grp 1 (phrase_in "shown") ;; plus ws ;; Grp 2 letters_word
].

Definition step11 (text : string) : string :=
  fold_left (fun text pattern => re_sub pattern fix_implicit_reference text)
            implicit_patterns text.

(** STEP 12: [fix_trailing_implicit] *)
Definition fix_trailing_implicit (text : string) (m : rmatch) : string :=
  let phrase := group m 1 in
  let punct := group m 2 in
  let start := m_start m - 500 in
  let context := slice start (m_end m) text in
  let fig_num := get_figure_number_from_context context in
  phrase ++ " FIG. " ++ of_int fig_num ++ punct.

Definition comma_or_dot : regex := one_of ",.".     (* [[,\.]] *)

Definition trailing_patterns : list regex := [
  (* ((?:as\s+)?illustrated\s+in)\s*([,\.]) *)
  Grp 1 (phrase_in "illustrated") ;; star ws ;; Grp 2 comma_or_dot;
  (* ((?:as\s+)?shown\s+in)\s*([,\.]) *)
  Grp 1 (phrase_in "shown") ;; star ws ;; Grp 2 comma_or_dot;
  (* ((?:as\s+)?depicted\s+in)\s*([,\.]) *)
  Grp 1 (phrase_in "depicted") ;; star ws ;; Grp 2 comma_or_dot;
  (* (represented\s+visually\s+in)\s*([,\.]) *)
  Grp 1 (ilit "represented" ;; plus ws ;; ilit "visually" ;; plus ws ;;
         ilit "in") ;; star ws ;; Grp 2 comma_or_dot
].

Definition step12 (text : string) : string :=
  fold_left (fun text pattern => re_sub pattern fix_trailing_implicit text)
            trailing_patterns text.

(** STEP 13: [in\s+FIG\.(?!\s*\d)] and [fix_fig_without_number] *)
Definition in_fig_no_number : regex :=
  ilit "in" ;; plus ws ;; FIG ;; dot ;; Look false (star ws ;; digit).

Definition fix_fig_without_number (text : string) (m : rmatch) : string :=
  let start := m_start m - 400 in
  let context := slice start (m_end m) text in
  let fig_num := get_figure_number_from_context context in
  "in FIG. " ++ of_int fig_num.

(** STEP 14: [FIG\.\s+(\d+)\s*,\s*,], [FIG\.\s+(\d+)\s*\.\s*\.],
    case-sensitive, and [\s{2,}] *)
Definition double_comma : regex :=
  FIG_cs ;; dot ;; plus ws ;; Grp 1 (plus digit) ;; star ws ;; ch "," ;;
  star ws ;; ch ",".
Definition double_dot : regex :=
  FIG_cs ;; dot ;; plus ws ;; Grp 1 (plus digit) ;; star ws ;; dot ;;
  star ws ;; dot.

(** The last substitution of the repair: [re.sub(r'\s{2,}', ' ', text)]. *)
Definition collapse_spaces (text : string) : string :=
  re_sub ws2 (constant " ") text.

(** The text before the last substitution. *)
Definition repair_stages (text : string) : string :=
  (* STEP 0 *)
  let text := re_sub dup_fig_number (fig_group1 "") text in
  let text := re_sub dup_fig_space (constant "FIG. ") text in
  (* STEP 1 *)
  let text := re_sub malformed_many (fig_group1 "") text in
  (* STEP 2 *)
  let text := re_sub malformed_two (fig_group1 "") text in
  (* STEP 3 *)
  let text := step3 text in
  (* STEP 4 *)
  let text := re_sub fig_and_empty fix_and_empty text in
  (* STEP 5 *)
  let text := re_sub figure_word (fig_group1 "") text in
  (* STEP 6 *)
  let text := re_sub fig_space_digit (fig_group1 "") text in
  let text := re_sub fig_dot_digit (fig_group1 "") text in
  let text := re_sub fig_dot_spaces_digit (fig_group1 "") text in
  (* STEP 7 *)
  let text := re_sub standalone_fig fix_standalone_fig text in
  (* STEP 8 *)
  let text := re_sub fig_number validate_fig text in
  (* STEP 9 *)
  let text := re_sub dup_fig_number (fig_group1 "") text in
  let text := re_sub dup_fig (constant "FIG") text in
  (* STEP 10 *)
  let text := re_sub fig_loose (fig_group1 "") text in
  (* STEP 11 *)
  let text := step11 text in
  (* STEP 12 *)
  let text := step12 text in
  (* STEP 13 *)
  let text := re_sub in_fig_no_number fix_fig_without_number text in
  (* STEP 14 *)
  let text := re_sub double_comma (fig_group1 ",") text in
  let text := re_sub double_dot (fig_group1 ".") text in
  text.

Definition fix_all_figure_references (text : string) : string :=
  collapse_spaces (repair_stages text).

End Repair.
Import Repair.

(* ================================================================== *)
(** ** The normalizer (CELL 6) *)

Module Clean.
Open Scope re_scope.

Definition nl : string := String newline EmptyString.     (* ['\n'] *)
Definition lpar : regex := ch "(".
Definition rpar : regex := ch ")".

(** All artifact patterns are used under IGNORECASE. *)
Definition ARTIFACTS : list regex := [
  (* END\s*OF\s*PART\s*\d+ *)
  ilit "END" ;; star ws ;; ilit "OF" ;; star ws ;; ilit "PART" ;; star ws ;;
  plus digit;
  (* PART\s*\d+\s*[-–:] *)
  ilit "PART" ;; star ws ;; plus digit ;; star ws ;; one_of "-:";
  (* \(Insert\s+[^)]+\) *)
  lpar ;; ilit "Insert" ;; plus ws ;; plus (none_of ")") ;; rpar;
  (* \[Insert\s+[^\]]+\] *)
  ch "[" ;; ilit "Insert" ;; plus ws ;; plus (none_of "]") ;; ch "]";
  (* <<[^>]+>> *)
  lit "<<" ;; plus (none_of ">") ;; lit ">>";
  (* \[FIGURE[^\]]*\] *)
  ch "[" ;; ilit "FIGURE" ;; star (none_of "]") ;; ch "]";
  (* IMAGE\s*PLACEHOLDER *)
  ilit "IMAGE" ;; star ws ;; ilit "PLACEHOLDER";
  (* Patent\s+Figures\s*\([^)]+\) *)
  ilit "Patent" ;; plus ws ;; ilit "Figures" ;; star ws ;; lpar ;;
  plus (none_of ")") ;; rpar
].

(** [[ \t]+] *)
Definition blanks : regex :=
  plus (Chr (fun c => Ascii.eqb c " " || Ascii.eqb c tab)).
(** [\n{4,}] *)
Definition newlines4 : regex := Rep true 4 None (ch newline).
(** [\((\d+)\)\s*\(\1\)] *)
Definition dup_section_number : regex :=
  lpar ;; Grp 1 (plus digit) ;; rpar ;; star ws ;; lpar ;; Bref 1 ;; rpar.

Definition remove_artifacts (text : string) : string :=
  fold_left (fun text p => re_sub p (constant "") text) ARTIFACTS text.

Definition collapse_blanks (text : string) : string :=
  re_sub blanks (constant " ") text.

Definition collapse_newlines (text : string) : string :=
  re_sub newlines4 (constant (nl ++ nl ++ nl)) text.

Definition fix_dup_section_numbers (text : string) : string :=
  re_sub dup_section_number (fun _ m => "(" ++ group m 1 ++ ")") text.

Definition clean_text (text : string) : string :=
  let text := remove_artifacts text in
  let text := collapse_blanks text in
  let text := collapse_newlines text in
  let text := fix_dup_section_numbers text in
  strip text.

End Clean.
Import Clean.

(* ================================================================== *)
(** ** Section parsing (CELL 11) *)

Module Sections.
Open Scope re_scope.

(** A Python [dict] from role names to texts, in insertion order. *)
Definition dict : Type := list (string * string).

Fixpoint dict_get (d : dict) (k : string) : option string :=
  match d with
  | [] => None
  | (k', v) :: rest => if String.eqb k k' then Some v else dict_get rest k
  end.

Definition dict_mem (d : dict) (k : string) : bool :=
  match dict_get d k with Some _ => true | None => false end.

Fixpoint dict_set (d : dict) (k v : string) : dict :=
  match d with
  | [] => [(k, v)]
  | (k', v') :: rest =>
      if String.eqb k k' then (k, v) :: rest else (k', v') :: dict_set rest k v
  end.

(** [^\(?\d*\)?\s*]: what the heading test puts before a marker. *)
Definition heading_prefix : regex :=
  Bos ;; opt lpar ;; star digit ;; opt rpar ;; star ws.

(** The marker patterns with their roles.  A marker is given by its
    alternatives: the test splices the marker text after the prefix, so
    that for [PCT|WIPO|BOILERPLATE] the prefix belongs to the first
    alternative only. *)
Definition SECTION_MARKERS : list (list regex * string) := [
  ([lit "TITLE"], "title"); ([lit "ABSTRACT"], "abstract");
  ([lit "FIELD"], "field");
  ([lit "BACKGROUND"], "background"); ([lit "SUMMARY"], "summary");
  ([lit "BRIEF" ;; star ws ;; lit "DESC"], "brief");
  ([lit "DETAILED" ;; star ws ;; lit "DESC"], "detailed");
  ([lit "ENABLEMENT"], "enablement"); ([lit "SECURITY"], "security");
  ([lit "COPYRIGHT"], "copyright"); ([lit "ALTERNATIVE"], "alternatives");
  ([lit "SECONDARY"], "secondary"); ([lit "CLAIM"], "claims");
  ([lit "WHAT" ;; star ws ;; lit "IS" ;; star ws ;; lit "CLAIMED"], "claims");
  ([lit "INDUSTRIAL"], "industrial");
  ([lit "BEST" ;; star ws ;; lit "MODE"], "best_mode");
  ([lit "PCT"; lit "WIPO"; lit "BOILERPLATE"], "boilerplate")
].

(** [f'^\\(?\\d*\\)?\\s*{pattern}'] *)
Definition heading_regex (alternatives : list regex) : regex :=
  match alternatives with
  | [] => heading_prefix
  | first :: others =>
      fold_left (fun acc a => Alt acc a) others (heading_prefix ;; first)
  end.

(** The inner loop of [parse_sections]: the role of the first marker that
    matches the line. *)
Fixpoint find_marker (markers : list (list regex * string)) (line : string)
  : option string :=
  match markers with
  | [] => None
  | (pattern, key) :: rest =>
      let upper_ := upper (strip line) in
      match re_match (heading_regex pattern) upper_ with
      | Some _ =>
          if len (strip line) <? 120 then Some key else find_marker rest line
      | None => find_marker rest line
      end
  end.

(** The state of the loop over the lines. *)
Record pstate : Type := PS {
  sections : dict;
  current : string;
  content : list string
}.

(** The flush at a heading line. *)
Definition flush_at_heading (st : pstate) : dict :=
  match content st with
  | [] => sections st
  | _ =>
      let txt := strip (join_lines (content st)) in
      if negb (String.eqb txt "")
         && (negb (dict_mem (sections st) (current st))
             || String.eqb (current st) "claims")
      then dict_set (sections st) (current st)
             ((match dict_get (sections st) (current st) with
               | Some v => v
               | None => ""
               end)
              ++ (if dict_mem (sections st) (current st)
                  then nl ++ nl else "")
              ++ txt)
      else sections st
  end.

(** The flush after the last line. *)
Definition flush_at_end (st : pstate) : dict :=
  match content st with
  | [] => sections st
  | _ =>
      let txt := strip (join_lines (content st)) in
      if negb (String.eqb txt "")
         && negb (dict_mem (sections st) (current st))
      then dict_set (sections st) (current st) txt
      else sections st
  end.

Definition parse_line (st : pstate) (line : string) : pstate :=
  match find_marker SECTION_MARKERS line with
  | Some found => PS (flush_at_heading st) found []
  | None => PS (sections st) (current st) (content st ++ [line])%list
  end.

Definition parse_sections (text : string) : dict :=
  let lines := split_lines text in
  flush_at_end (fold_left parse_line lines (PS [] "preamble" [])).

End Sections.
Import Sections.

(* ================================================================== *)
(** ** Claim extraction (CELL 11) *)

Module Claims.
Open Scope re_scope.

(** A claim: [{'number': .., 'text': .., 'is_dependent': ..}]. *)
Record claim : Type := Claim {
  number : N;
  text : string;
  is_dependent : bool
}.

(** [.] under DOTALL *)
Definition any_char : regex := Chr (fun _ => true).
(** [.] without DOTALL, and [[^\n]] *)
Definition not_newline : regex :=
  Chr (fun c => negb (Ascii.eqb c newline)).
(** [[A-Z]] under IGNORECASE *)
Definition letter : regex := Chr is_letter.
(** [[A-Z]] *)
Definition capital : regex := Chr is_upper.
(** [[\.\s—\-:]] *)
Definition separator : regex :=
  Chr (fun c => Ascii.eqb c "." || is_space c || Ascii.eqb c "-"
                || Ascii.eqb c ":").

(** [(?:CLAIMS?|WHAT\s*IS\s*CLAIMED)[^\n]*\n(.+)] with [*] for the last
    [+], under IGNORECASE and DOTALL *)
Definition claims_heading : regex :=
  ((ilit "CLAIM" ;; opt (ich "S"))
   <|> (ilit "WHAT" ;; star ws ;; ilit "IS" ;; star ws ;; ilit "CLAIMED")) ;;
  star not_newline ;; ch newline ;; Grp 1 (star any_char).

(** [(?:CLAIM\s{0,})?\d{1,2}[\.\s—\-:]+], the label of a claim *)
Definition claim_label (n : option nat) : regex :=
  opt (ilit "CLAIM" ;; star ws) ;;
  match n with Some g => Grp g d12 | None => d12 end ;;
  plus separator.

(** [(?:^|\n)\s*(?:CLAIM\s{0,})?(\d{1,2})[\.\s—\-:]+([A-Z].*?)
     (?=\n\s*(?:CLAIM\s{0,})?\d{1,2}[\.\s—\-:]+[A-Z]|\n\s*\(\d+\)\s*[A-Z]|\Z)]
    under IGNORECASE and DOTALL; the source writes [\s*] for [\s{0,}] *)
Definition claim_pattern : regex :=
  (Bos <|> ch newline) ;; star ws ;; claim_label (Some 1) ;;
  Grp 2 (letter ;; Rep false 0 None any_char) ;;
  Look true
    ((ch newline ;; star ws ;; claim_label None ;; letter)
     <|> (ch newline ;; star ws ;; lpar ;; plus digit ;; rpar ;; star ws ;;
          letter)
     <|> Eos).

(** [\s+] *)
Definition spaces : regex := plus ws.
(** [\s*\(\d+\)\s*[A-Z][A-Z\s]+$], case-sensitive *)
Definition trailing_header : regex :=
  star ws ;; lpar ;; plus digit ;; rpar ;; star ws ;; capital ;;
  plus (Chr (fun c => is_upper c || is_space c)) ;; Eol.
(** [\s*(INDUSTRIAL|BEST\s*MODE|PCT|WIPO).*$] under IGNORECASE *)
Definition trailing_section : regex :=
  star ws ;;
  Grp 1 (ilit "INDUSTRIAL" <|> (ilit "BEST" ;; star ws ;; ilit "MODE")
         <|> ilit "PCT" <|> ilit "WIPO") ;;
  star not_newline ;; Eol.
(** [(?:claim\s+\d+|according\s+to\s+claim|as\s+(?:claimed|recited)\s+in\s+claim|of\s+claim\s+\d+)]
    under IGNORECASE *)
Definition back_reference : regex :=
  (ilit "claim" ;; plus ws ;; plus digit)
  <|> (ilit "according" ;; plus ws ;; ilit "to" ;; plus ws ;; ilit "claim")
  <|> (ilit "as" ;; plus ws ;; (ilit "claimed" <|> ilit "recited") ;;
       plus ws ;; ilit "in" ;; plus ws ;; ilit "claim")
  <|> (ilit "of" ;; plus ws ;; ilit "claim" ;; plus ws ;; plus digit).

(** The text of a candidate as the loop body computes it: white space
    collapsed and stripped, then the trailing section headers removed. *)
Definition collapsed (body : string) : string :=
  strip (re_sub spaces (constant " ") body).

Definition tidy (body : string) : string :=
  let txt := collapsed body in
  let txt := re_sub trailing_header (constant "") txt in
  re_sub trailing_section (constant "") txt.

Definition dependent (txt : string) : bool :=
  match re_search back_reference txt with Some _ => true | None => false end.

(** The state of the loop over the matches: [claims] and [seen]. *)
Definition cstate : Type := (list claim * list N)%type.

Definition seen_mem (n : N) (seen : list N) : bool := existsb (N.eqb n) seen.

(** The test of the loop body. *)
Definition admissible (seen : list N) (num : N) (txt : string) : bool :=
  negb (seen_mem num seen) && (num <=? 65)%N && (20 <=? len txt).

(** The loop body, for a match with groups [num_text] and [body]. *)
Definition consider (st : cstate) (cand : string * string) : cstate :=
  let num := int_of (fst cand) in
  let txt := tidy (snd cand) in
  if admissible (snd st) num txt
  then ((fst st ++ [Claim num txt (dependent txt)])%list, num :: snd st)
  else st.

(** [claims.sort(key=lambda x: x['number'])]: a stable sort. *)
Fixpoint insert_claim (c : claim) (l : list claim) : list claim :=
  match l with
  | [] => [c]
  | d :: rest =>
      if (number c <? number d)%N then c :: l else d :: insert_claim c rest
  end.

Definition sort_claims (l : list claim) : list claim :=
  fold_right insert_claim [] l.

(** The part of the text the claims are looked for in. *)
Definition claims_scope (text : string) : string :=
  match re_search claims_heading text with
  | Some m => group m 1
  | None => text
  end.

(** The candidates: groups 1 and 2 of every match of the claim pattern. *)
Definition candidates (text : string) : list (string * string) :=
  map (fun m => (group m 1, group m 2))
      (re_finditer claim_pattern (claims_scope text)).

Definition extract_claims (text : string) : list claim :=
  sort_claims (fst (fold_left consider (candidates text) ([], []))).

End Claims.
Import Claims.

(* ================================================================== *)
(** ** The properties, as the specification words them *)

Module Spec.

(** The wrap-around formula of the specification: [((v-1) mod 17) + 1]. *)
Definition wrap_around (v : Z) : Z := ((v - 1) mod 17 + 1)%Z.

(** The score of a keyword in a lowered window: nothing when it does not
    occur, else twice its length, and 5 more when [bounded] says so. *)
Definition keyword_score (bounded : string -> string -> bool)
    (window kw : string) : option nat :=
  if contains kw window
  then Some (2 * len kw + (if bounded kw window then 5 else 0))
  else None.

(** The scored keywords of the catalog, in declaration order, each with
    the number of its figure. *)
Definition entry_scores (bounded : string -> string -> bool)
    (window : string) (fig : figure) : list (N * nat) :=
  flat_map (fun kw =>
              match keyword_score bounded window kw with
              | Some s => [(num fig, s)]
              | None => []
              end)
           (keywords fig).

Definition scores (bounded : string -> string -> bool) (window : string)
  : list (N * nat) :=
  flat_map (entry_scores bounded window) FIGURES.

(** The first entry to reach the maximal score; 1 when nothing scores. *)
Definition max_score (l : list (N * nat)) : nat :=
  fold_right (fun c m => Nat.max (snd c) m) 0 l.

Definition first_max (l : list (N * nat)) : N :=
  match find (fun c => snd c =? max_score l) l with
  | Some c => fst c
  | None => 1%N
  end.

(** "Bounded by whitespace", by the words of the specification: an
    occurrence with a white-space character, or an end of the window,
    on either side. *)
Fixpoint bounded_from (before_ok : bool) (kw window : string) : bool :=
  (before_ok &&
   match after_prefix kw window with
   | Some EmptyString => true
   | Some (String c _) => is_space c
   | None => false
   end)
  || match window with
     | EmptyString => false
     | String c t => bounded_from (is_space c) kw t
     end.

Definition whitespace_bounded (kw window : string) : bool :=
  bounded_from true kw window.

(** What the source tests: the keyword between two space characters,
    the window counting as if it had one at either end. *)
Definition space_bounded (kw window : string) : bool :=
  contains (" " ++ kw ++ " ") (" " ++ window ++ " ").

(** The resolver by the words of the specification. *)
Definition resolve_by_whitespace (context_text : string) : N :=
  first_max (scores whitespace_bounded (lower context_text)).

(** Does any keyword of the catalog occur in the window? *)
Definition any_keyword (window : string) : bool :=
  existsb (fun fig => existsb (fun kw => contains kw window) (keywords fig))
          FIGURES.

(** Two white-space characters next to each other. *)
Fixpoint adjacent_spaces (s : string) : bool :=
  match s with
  | String c ((String d _) as t) =>
      (is_space c && is_space d) || adjacent_spaces t
  | _ => false
  end.

(** The first and the last character of a text. *)
Definition first_char (s : string) : option ascii :=
  match s with
  | String c _ => Some c
  | EmptyString => None
  end.

Fixpoint last_char (s : string) : option ascii :=
  match s with
  | EmptyString => None
  | String c EmptyString => Some c
  | String _ t => last_char t
  end.

Definition is_char (p : ascii -> bool) (o : option ascii) : bool :=
  match o with
  | Some c => p c
  | None => false
  end.

(** The running maximum of the two loops: a later score replaces the
    best one only when it is greater. *)
Definition pick (b : best) (c : N * nat) : best :=
  if snd b <? snd c then c else b.

(** What the loop keeps true of its state: [seen] holds the numbers of
    the claims accepted so far, no number twice, none above 65 and no
    text shorter than 20. *)
Definition loop_invariant (st : cstate) : Prop :=
  snd st = rev (map number (fst st))
  /\ NoDup (map number (fst st))
  /\ Forall (fun c => (number c <= 65)%N /\ 20 <= len (text c)) (fst st).

(** The number of characters of the class [p] a text begins with. *)
Fixpoint span (p : ascii -> bool) (s : string) : nat :=
  match s with
  | String c t => if p c then S (span p t) else 0
  | EmptyString => 0
  end.

(** [p{lo,}], greedy: a run of the class [p]. *)
Definition run_regex (p : ascii -> bool) (lo : nat) : regex :=
  Rep true lo None (Chr p).

(** The substitution of [rep] for the runs, from a suffix [s] of the
    text on; [skip] as in [sub_from]. *)
Definition squeeze_from (p : ascii -> bool) (lo : nat) (rep : string)
    (s : string) (skip : nat) : string :=
  sub_from (run_regex p lo) (constant rep) EmptyString 0 s skip.

(** Every character of a text is of the class [p]. *)
Fixpoint all_chars (p : ascii -> bool) (s : string) : bool :=
  match s with
  | String c t => p c && all_chars p t
  | EmptyString => true
  end.





End Spec.
Import Spec.

(* ================================================================== *)
(** ** The cleaning pipeline for the renderer (CELL 6, second part) *)

Module Pdf.
Open Scope re_scope.

(** [s.replace(old, new)]: the occurrences of [old] from left to right,
    none overlapping another.  [skip] counts the characters still inside
    the occurrence found last. *)
Fixpoint replace_from (old new s : string) (skip : nat) {struct s} : string :=
  match skip with
  | S skip' =>
      match s with
      | String _ t => replace_from old new t skip'
      | EmptyString => EmptyString
      end
  | 0 =>
      match s with
      | EmptyString => EmptyString
      | String c t =>
          if starts_with old s
          then new ++ replace_from old new t (len old - 1)
          else String c (replace_from old new t 0)
      end
  end.

(** With an empty [old] Python puts [new] before every character and at
    the end. *)
Fixpoint intersperse (new s : string) : string :=
  new ++ match s with
         | EmptyString => EmptyString
         | String c t => String c (intersperse new t)
         end.

Definition replace (old new s : string) : string :=
  match old with
  | EmptyString => intersperse new s
  | _ => replace_from old new s 0
  end.

Definition char_string (n : N) : string := String (ascii_of_N n) EmptyString.
Definition dquote : string := char_string 34.       (* the double quote *)
Definition times_sign : string := char_string 215.
Definition division_sign : string := char_string 247.
Definition plus_minus_sign : string := char_string 177.

(** The table of [fix_symbols].  Of its 34 pairs the 28 whose symbol
    lies outside the code points 0..255 (squares, bullets, arrows,
    relations, Greek letters, dashes, the ellipsis) are left out: no
    modelled text contains their symbol.  The source text puts a plain
    double quote for itself twice; and its two pairs for the apostrophe
    are written with three apostrophes in a row, which Python reads as
    one pair whose symbol is the nine characters between them. *)
Definition syms : list (string * string) := [
  (times_sign, "*"); (division_sign, "/"); (plus_minus_sign, "+/-");
  (dquote, dquote); (dquote, dquote);
  (", " ++ dquote ++ "'" ++ dquote ++ "), (", "'")
].

Definition fix_symbols (text : string) : string :=
  fold_left (fun text on => replace (fst on) (snd on) text) syms text.

(** [text.encode('ascii', 'ignore').decode('ascii')] *)
Definition is_ascii (c : ascii) : bool := N.ltb (code c) 128.

Fixpoint ascii_only (s : string) : string :=
  match s with
  | EmptyString => EmptyString
  | String c t => if is_ascii c then String c (ascii_only t) else ascii_only t
  end.

Definition clean_for_pdf (text : string) : string :=
  match text with
  | EmptyString => EmptyString
  | _ =>
      let text := clean_text text in
      let text := fix_all_figure_references text in
      let text := fix_symbols text in
      let text :=
        replace ">" "&gt;" (replace "<" "&lt;" (replace "&" "&amp;" text)) in
      let text := ascii_only text in
      strip text
  end.

(** *** The paragraph builder (CELL 12) *)

(** [re.split(r, text)] for a pattern without groups: the texts between
    the matches.  The head of the result is the piece that is being
    read.  The pattern of the program does not match the empty string;
    an empty match does not split. *)
Fixpoint split_from (r : regex) (pos : nat) (s : string) (skip : nat)
    {struct s} : list string :=
  match skip with
  | S skip' =>
      match s with
      | String _ t => split_from r (S pos) t skip'
      | EmptyString => [EmptyString]
      end
  | 0 =>
      match s with
      | EmptyString => [EmptyString]
      | String c t =>
          match match_at r pos s with
          | Some m =>
              if m_end m =? pos
              then match split_from r (S pos) t 0 with
                   | p :: ps => String c p :: ps
                   | [] => [String c EmptyString]
                   end
              else EmptyString :: split_from r (S pos) t (m_end m - pos - 1)
          | None =>
              match split_from r (S pos) t 0 with
              | p :: ps => String c p :: ps
              | [] => [String c EmptyString]
              end
          end
      end
  end.

Definition re_split (r : regex) (text : string) : list string :=
  split_from r 0 text 0.

(** [s.split(sep)] for a separator that is not empty. *)
Fixpoint str_split_from (sep s : string) (skip : nat) {struct s}
  : list string :=
  match skip with
  | S skip' =>
      match s with
      | String _ t => str_split_from sep t skip'
      | EmptyString => [EmptyString]
      end
  | 0 =>
      match s with
      | EmptyString => [EmptyString]
      | String c t =>
          if starts_with sep s
          then EmptyString :: str_split_from sep t (len sep - 1)
          else match str_split_from sep t 0 with
               | p :: ps => String c p :: ps
               | [] => [String c EmptyString]
               end
      end
  end.

Definition str_split (sep s : string) : list string := str_split_from sep s 0.

(** [\n\s*\n] *)
Definition blank_line : regex := ch newline ;; star ws ;; ch newline.

Definition nonempty (s : string) : bool := negb (String.eqb s EmptyString).

Section Paragraphs.

(** Whether the renderer's [Paragraph] accepts a text; where it raises,
    the source goes on without the paragraph. *)
Variable paragraph_ok : string -> bool.

(** The inner loop of [make_paragraphs]: a text the renderer refused,
    sentence by sentence. *)
Definition sentences (cleaned : string) : list string :=
  flat_map (fun s =>
              if nonempty (strip s)
              then if paragraph_ok (strip s ++ ".") then [strip s ++ "."]
                   else []
              else [])
           (str_split ". " cleaned).

(** The body of the loop of [make_paragraphs], for one piece. *)
Definition paragraphs_of (p : string) : list string :=
  let p := strip p in
  if nonempty p && (5 <? len p) then
    let cleaned := clean_for_pdf p in
    if nonempty cleaned then
      if paragraph_ok cleaned then [cleaned] else sentences cleaned
    else []
  else [].

(** [make_paragraphs], as the texts of the paragraphs it returns. *)
Definition make_paragraphs (content : string) : list string :=
  match content with
  | EmptyString => []
  | _ =>
      let content := clean_text content in
      let content := fix_all_figure_references content in
      let content := fix_symbols content in
      flat_map paragraphs_of (re_split blank_line content)
  end.

End Paragraphs.

(** *** The figures of the document (CELL 13) *)

(** [num_figs], from the number of figure files. *)
Definition num_figs (files : nat) : nat :=
  match files with
  | 0 => 17
  | _ => Nat.min files 17
  end.

(** Section (6): [FIGURES[:num_figs]], as label, title and description. *)
Definition figure_entry (fig : figure) : string * string * string :=
  (label fig, title fig, desc fig).

Definition described_figures (files : nat) : list (string * string * string) :=
  map figure_entry (firstn (num_figs files) FIGURES).

(** Section (17): [fig_def] for an index. *)
Definition fig_def (idx : nat) : string * string * string :=
  if idx <? List.length FIGURES
  then figure_entry (nth idx FIGURES (Figure 0 "" "" "" []))
  else ("FIG. " ++ of_int (N.of_nat (idx + 1)), "", "").

(** Section (17): the figures shown, one for every index of the loop. *)
Definition shown_figures (files : nat) : list (string * string * string) :=
  match files with
  | 0 => []
  | _ => map fig_def (seq 0 (Nat.min files (num_figs files)))
  end.


(** *** The choice of the claims (CELL 14) *)

(** The claims [main] builds the document from: those of the whole
    text, or, when these are fewer than 10 and there is a claims
    section, those of that section. *)
Definition select_claims (full_text : string) : list claim :=
  let sections := parse_sections full_text in
  let claims := extract_claims full_text in
  if (List.length claims <? 10) && dict_mem sections "claims"
  then match dict_get sections "claims" with
       | Some section => extract_claims section
       | None => claims
       end
  else claims.

(** The characters of a text without markup: ASCII, and neither of the
    two angle brackets. *)
Definition markup_free (c : ascii) : bool :=
  is_ascii c && negb (Ascii.eqb "<" c) && negb (Ascii.eqb ">" c).

(** The roles of the segmenter: the role of the text before the first
    heading, and the roles of the markers. *)
Definition role (k : string) : Prop :=
  k = "preamble" \/ In k (map snd SECTION_MARKERS).

(** What holds of every section the segmenter returns: its key is a
    role, and its text is not empty and neither begins nor ends with
    white space. *)
Definition section_ok (kv : string * string) : Prop :=
  role (fst kv) /\ snd kv <> EmptyString
  /\ is_char is_space (first_char (snd kv)) = false
  /\ is_char is_space (last_char (snd kv)) = false.

(** No line of a text is a heading. *)
Definition no_heading (text0 : string) : bool :=
  forallb (fun line =>
             match find_marker SECTION_MARKERS line with
             | None => true
             | Some _ => false
             end)
          (split_lines text0).

(** What the loop of the segmenter keeps true of its state. *)
Definition segmenter_invariant (st : pstate) : Prop :=
  NoDup (map fst (sections st)) /\ Forall section_ok (sections st)
  /\ role (current st).

(** What holds of the claims extracted from any text. *)
Definition claims_ok (claims : list claim) : Prop :=
  StronglySorted N.lt (map number claims)
  /\ Forall (fun c => (number c <= 65)%N /\ 20 <= len (text c)
                      /\ is_dependent c = dependent (text c)) claims
  /\ List.length claims <= 66.

(** The numbers below a bound. *)
Definition numbers_below (n : nat) : list N := map N.of_nat (seq 0 n).

(** The characters of a text the symbol table does not touch: ASCII, and
    not the double quote. *)
Definition no_symbol (c : ascii) : bool :=
  is_ascii c && negb (Ascii.eqb (ascii_of_N 34) c).

(** *** Texts that a scan accepts

    A property of texts that is checked from left to right, with a
    state: which characters may come in a state, and the state after a
    character. *)
Section Scans.

Context {Q : Type}.
Variable allowed : Q -> ascii -> bool.
Variable next : Q -> ascii -> Q.

Fixpoint safe (q : Q) (s : string) : bool :=
  match s with
  | EmptyString => true
  | String c t => allowed q c && safe (next q c) t
  end.

(** The state at the end of a text. *)
Fixpoint state_after (q : Q) (s : string) : Q :=
  match s with
  | EmptyString => q
  | String c t => state_after (next q c) t
  end.

End Scans.

(** The characters of [[ \t]]. *)
Definition is_blank (c : ascii) : bool := Ascii.eqb c " " || Ascii.eqb c tab.

(** No tab, and no two spaces next to each other; the state tells
    whether the character before was a space. *)
Definition blank_allowed (after_space : bool) (c : ascii) : bool :=
  negb (Ascii.eqb tab c) && negb (after_space && Ascii.eqb " " c).
Definition blank_next (_ : bool) (c : ascii) : bool := Ascii.eqb " " c.
Definition single_spaced (s : string) : bool :=
  safe blank_allowed blank_next false s.

(** No four line breaks in a row; the state counts the line breaks just
    before. *)
Definition break_allowed (breaks : nat) (c : ascii) : bool :=
  negb (Ascii.eqb newline c && (3 <=? breaks)).
Definition break_next (breaks : nat) (c : ascii) : nat :=
  if Ascii.eqb newline c then S breaks else 0.
Definition few_breaks (s : string) : bool :=
  safe break_allowed break_next 0 s.

(** A text within another, and a text at the end of another. *)
Definition within (g whole : string) : Prop :=
  exists a b, whole = a ++ g ++ b.
Definition ending (s whole : string) : Prop :=
  exists a, whole = a ++ s.

(** The state of the matcher on a text [whole]: what is still to be
    read ends the text, and every group captured lies within it. *)
Definition on_text (whole : string) (st : mstate) : Prop :=
  ending (ms_rest st) whole
  /\ Forall (fun ng => within (snd ng) whole) (ms_caps st).

End Pdf.
Import Pdf.

(* ================================================================== *)
(** ** The characters a pattern can begin a match with *)

Module Starts.






End Starts.
Import Starts.

(* ================================================================== *)
(** ** The reference repair run twice, and what it leaves behind *)

Section RepairRuns.

(** C1.  The repair is not idempotent.  A first run completes the
    reference of "as shown in the box"; a second run takes the completed
    "in FIG. 1," for an empty reference (the last of the patterns for
    empty references lets the period of "FIG." stand for the period
    after it) and writes a second number into it. *)
Theorem repair_twice_differs :
  fix_all_figure_references "as shown in the box"
    = "as shown in FIG. 1, the box"
  /\ fix_all_figure_references
       (fix_all_figure_references "as shown in the box")
    = "as shown in FIG. 1. 1, the box".
Proof. split; vm_compute; reflexivity. Qed.

(** C4.  A reference phrase before a semicolon stays without a marker,
    where the same phrase before a comma receives one. *)
Theorem dangling_before_semicolon :
  fix_all_figure_references "as shown in;" = "as shown in;"
  /\ fix_all_figure_references "as shown in," = "as shown in FIG. 1,".
Proof. split; vm_compute; reflexivity. Qed.

End RepairRuns.

(* ================================================================== *)
(** ** The validation of figure numbers *)

Section Validation.

(** C2, the claim as stated fails: the marker number 0 is out of range
    and is written as 1, where the wrap-around formula gives 17. *)
Lemma zero_marker_not_wrapped :
  fix_all_figure_references "FIG. 0" = "FIG. 1"
  /\ wrap_around 0 = 17%Z.
Proof. split; vm_compute; reflexivity. Qed.

Lemma validate_num_range (v : N) :
  (1 <= validate_num v <= 17)%N.
Proof.
  unfold validate_num.
  destruct (N.ltb_spec v 1); [lia|].
  destruct (N.ltb_spec 17 v); [|lia].
  assert (Hm : ((v - 1) mod 17 < 17)%N) by (apply N.mod_upper_bound; lia).
  revert Hm. generalize ((v - 1) mod 17)%N. intros; lia.
Qed.

(** C2, amended.  Whatever the validation matched, it writes a marker
    again, with a number between 1 and 17: a number in range is kept, 0
    becomes 1, and a number above 17 is wrapped around. *)
Theorem validate_fig_in_range (text0 : string) (m : rmatch) :
  let v := int_of (group m 1) in
  validate_fig text0 m = "FIG. " ++ of_int (validate_num v)
  /\ (1 <= validate_num v <= 17)%N
  /\ validate_num v =
       (if (v =? 0)%N then 1
        else if (v <=? 17)%N then v
        else (v - 1) mod 17 + 1)%N.
Proof.
  cbv zeta. split; [reflexivity|]. split; [apply validate_num_range|].
  unfold validate_num.
  destruct (N.ltb_spec (int_of (group m 1)) 1);
    destruct (N.eqb_spec (int_of (group m 1)) 0); try lia; try reflexivity.
  destruct (N.ltb_spec 17 (int_of (group m 1)));
    destruct (N.leb_spec (int_of (group m 1)) 17); try lia; reflexivity.
Qed.

End Validation.

(* ================================================================== *)
(** ** The normalizer and the segmenter on concrete texts *)

Section Evaluations.

(** C9.  The normalizer is not idempotent: of three copies of a section
    number one run removes one, and the next run another. *)
Theorem clean_text_twice_differs :
  clean_text "(1)(1)(1)" = "(1)(1)"
  /\ clean_text (clean_text "(1)(1)(1)") = "(1)".
Proof. split; vm_compute; reflexivity. Qed.

(** C5.  The flush at the end of the input does not append to the
    claims: a second block of claims that ends the text is lost, and one
    that is followed by another heading is appended. *)
Theorem final_flush_drops_claims :
  parse_sections
    (join_lines ["CLAIMS"; "first"; "ABSTRACT"; "abs"; "CLAIMS"; "second"])
    = [("claims", "first"); ("abstract", "abs")]
  /\ parse_sections
       (join_lines ["CLAIMS"; "first"; "ABSTRACT"; "abs"; "CLAIMS"; "second";
                    "SUMMARY"; "sum"])
     = [("claims", "first" ++ nl ++ nl ++ "second"); ("abstract", "abs");
        ("summary", "sum")]
  /\ parse_sections
       (join_lines ["ABSTRACT"; "one"; "SUMMARY"; "sum"; "ABSTRACT"; "two"])
     = [("abstract", "one"); ("summary", "sum")].
Proof. repeat split; vm_compute; reflexivity. Qed.

End Evaluations.

(* ================================================================== *)
(** ** The context resolver *)

Section Resolver.

Lemma score_keyword_pick (cl : string) (n : N) (b : best) (kw : string) :
  score_keyword cl n b kw =
  match keyword_score space_bounded cl kw with
  | Some s => pick b (n, s)
  | None => b
  end.
Proof.
  unfold score_keyword, keyword_score, space_bounded, pick.
  destruct (contains kw cl); [|reflexivity].
  destruct (contains (" " ++ kw ++ " ") (" " ++ cl ++ " ")); cbn [snd];
    replace (2 * len kw + 5) with (len kw * 2 + 5) by lia;
    replace (2 * len kw + 0) with (len kw * 2) by lia; reflexivity.
Qed.

Lemma score_figure_pick (cl : string) (fig : figure) (b : best) :
  score_figure cl b fig = fold_left pick (entry_scores space_bounded cl fig) b.
Proof.
  unfold score_figure, entry_scores.
  revert b. induction (keywords fig) as [|kw kws IH]; intro b; [reflexivity|].
  cbn [fold_left flat_map]. rewrite fold_left_app, score_keyword_pick, IH.
  destruct (keyword_score space_bounded cl kw); reflexivity.
Qed.

Lemma resolver_pick (cl : string) (figs : list figure) (b : best) :
  fold_left (score_figure cl) figs b =
  fold_left pick (flat_map (entry_scores space_bounded cl) figs) b.
Proof.
  revert b. induction figs as [|fig figs IH]; intro b; [reflexivity|].
  cbn [fold_left flat_map]. rewrite fold_left_app, IH, score_figure_pick.
  reflexivity.
Qed.

(** What the running maximum ends with: the start value, when nothing
    beats it, or else the first of the greatest scores. *)
Lemma fold_pick_first_max (l : list (N * nat)) (b : best) :
  (fold_left pick l b = b /\ Forall (fun d => snd d <= snd b) l)
  \/ exists pre c post,
       l = (pre ++ c :: post)%list /\ fold_left pick l b = c
       /\ snd b < snd c
       /\ Forall (fun d => snd d < snd c) pre
       /\ Forall (fun d => snd d <= snd c) post.
Proof.
  revert b. induction l as [|c l IH]; intro b.
  - left. split; [reflexivity|constructor].
  - cbn [fold_left].
    destruct (Nat.ltb_spec (snd b) (snd c)) as [Hlt|Hge].
    + assert (Hp : pick b c = c)
        by (unfold pick; apply Nat.ltb_lt in Hlt; rewrite Hlt; reflexivity).
      rewrite Hp. right.
      destruct (IH c)
        as [[Hr Hall]|(pre & c' & post & Hl & Hr & Hc & Hpre & Hpost)].
      * exists [], c, l. repeat split; auto; constructor.
      * exists (c :: pre), c', post. subst l. repeat split; auto; try lia.
    + assert (Hp : pick b c = b)
        by (unfold pick; apply Nat.ltb_ge in Hge; rewrite Hge; reflexivity).
      rewrite Hp.
      destruct (IH b)
        as [[Hr Hall]|(pre & c' & post & Hl & Hr & Hc & Hpre & Hpost)].
      * left. split; [assumption|]. constructor; assumption.
      * right. exists (c :: pre), c', post. subst l. repeat split; auto.
        constructor; [lia|assumption].
Qed.

(** Every keyword of the catalog has a character, so every score is
    positive. *)
Lemma scores_positive (bounded : string -> string -> bool) (cl : string) :
  Forall (fun d => 0 < snd d) (scores bounded cl).
Proof.
  assert (Hk : forallb (fun fig => forallb (fun kw => 0 <? len kw) (keywords fig))
                       FIGURES = true) by (vm_compute; reflexivity).
  rewrite forallb_forall in Hk.
  apply Forall_forall. intros d Hd.
  unfold scores in Hd. apply in_flat_map in Hd.
  destruct Hd as (fig & Hfig & Hd).
  unfold entry_scores in Hd. apply in_flat_map in Hd.
  destruct Hd as (kw & Hkw & Hd).
  specialize (Hk fig Hfig). rewrite forallb_forall in Hk.
  specialize (Hk kw Hkw).
  apply Nat.ltb_lt in Hk.
  unfold keyword_score in Hd. destruct (contains kw cl); [|destruct Hd].
  destruct Hd as [Hd|[]]. subst d. cbn [snd]. lia.
Qed.

(** No keyword occurs exactly when nothing is scored. *)
Lemma scores_nil (bounded : string -> string -> bool) (cl : string) :
  any_keyword cl = false <-> scores bounded cl = [].
Proof.
  unfold any_keyword, scores. induction FIGURES as [|fig figs IH].
  - cbn. tauto.
  - cbn [existsb flat_map]. rewrite orb_false_iff, IH.
    assert (Hfig : existsb (fun kw => contains kw cl) (keywords fig) = false
                   <-> entry_scores bounded cl fig = []).
    { unfold entry_scores. induction (keywords fig) as [|kw kws IHk].
      - cbn. tauto.
      - cbn [existsb flat_map]. rewrite orb_false_iff, IHk.
        unfold keyword_score. destruct (contains kw cl); cbn.
        + split; [intros [H _]; discriminate|intro H; discriminate].
        + tauto. }
    rewrite Hfig. split.
    + intros [-> ->]. reflexivity.
    + intro H. apply app_eq_nil in H. assumption.
Qed.

Lemma max_score_upper (l : list (N * nat)) (m : nat) :
  Forall (fun d => snd d <= m) l -> max_score l <= m.
Proof.
  induction 1 as [|d l Hd _ IH]; unfold max_score in *; cbn [fold_right]; lia.
Qed.

Lemma max_score_app (l1 l2 : list (N * nat)) :
  max_score (l1 ++ l2) = Nat.max (max_score l1) (max_score l2).
Proof.
  induction l1 as [|d l1 IH]; unfold max_score in *; cbn [app fold_right];
    [reflexivity|].
  rewrite IH. lia.
Qed.

Lemma first_max_at (pre post : list (N * nat)) (c : N * nat) :
  Forall (fun d => snd d < snd c) pre ->
  Forall (fun d => snd d <= snd c) post ->
  first_max (pre ++ c :: post) = fst c.
Proof.
  intros Hpre Hpost. unfold first_max.
  assert (Hm : max_score (pre ++ c :: post) = snd c).
  { rewrite max_score_app.
    change (max_score (c :: post)) with (Nat.max (snd c) (max_score post)).
    pose proof (max_score_upper post (snd c) Hpost).
    assert (max_score pre <= snd c).
    { apply max_score_upper. eapply Forall_impl; [|exact Hpre].
      cbn. intros; lia. }
    lia. }
  rewrite Hm. clear Hm.
  induction Hpre as [|d pre Hd _ IH]; cbn [app find].
  - rewrite Nat.eqb_refl. reflexivity.
  - destruct (Nat.eqb_spec (snd d) (snd c)); [lia|assumption].
Qed.

(** C3, the claim as stated fails: a keyword between two line breaks is
    bounded by white space and receives no bonus.  In the window below
    "audio" (figure 6) scores 10 and "mood" (figure 8), between two
    spaces, scores 13; with the bonus for "audio" figure 6 would win. *)
Lemma newline_bounded_keyword_no_bonus :
  resolve_by_whitespace (" mood " ++ nl ++ "audio" ++ nl) = 6%N
  /\ get_figure_number_from_context (" mood " ++ nl ++ "audio" ++ nl) = 8%N.
Proof. split; vm_compute; reflexivity. Qed.

(** C3, amended.  The resolver returns the number of the first catalog
    entry, in declaration order, to reach the greatest score, where a
    keyword that occurs in the lowered window scores twice its length,
    and 5 more when it occurs between two space characters (the ends of
    the window counting as spaces); later equal scores do not replace
    it; when no keyword occurs the result is 1; and the window of the
    specification's example resolves to figure 8. *)
Theorem resolver_first_greatest :
  (forall w : string,
     let cands := scores space_bounded (lower w) in
     let r := get_figure_number_from_context w in
     r = first_max cands
     /\ if any_keyword (lower w)
        then exists pre c post,
               cands = (pre ++ c :: post)%list /\ r = fst c
               /\ Forall (fun d => snd d < snd c) pre
               /\ Forall (fun d => snd d <= snd c) post
        else r = 1%N)
  /\ get_figure_number_from_context "...the valence dimension is shown in."
     = 8%N.
Proof.
  split; [|vm_compute; reflexivity].
  intros w cands r.
  assert (Hr : r = fst (fold_left pick cands (1%N, 0))).
  { unfold r, get_figure_number_from_context. rewrite resolver_pick.
    reflexivity. }
  pose proof (scores_positive space_bounded (lower w)) as Hpos.
  pose proof (scores_nil space_bounded (lower w)) as Hnil.
  fold cands in Hpos, Hnil.
  destruct (fold_pick_first_max cands (1%N, 0))
    as [[Hb Hall]|(pre & c & post & Hl & Hc & _ & Hpre & Hpost)].
  - assert (Hempty : cands = []).
    { destruct cands as [|d l]; [reflexivity|].
      inversion Hpos; subst. inversion Hall; subst. cbn [snd] in *. lia. }
    rewrite Hr, Hb, Hempty. split; [reflexivity|].
    apply Hnil in Hempty. rewrite Hempty. reflexivity.
  - rewrite Hr, Hc. split.
    + rewrite Hl. symmetry. apply first_max_at; assumption.
    + destruct (any_keyword (lower w)) eqn:Hany.
      * exists pre, c, post. repeat split; assumption.
      * rewrite (proj1 Hnil eq_refl) in Hl. destruct pre; discriminate.
Qed.

End Resolver.

(* ================================================================== *)
(** ** The claims extractor *)

Section Extractor.

Lemma in_insert_claim (c x : claim) (l : list claim) :
  In x (insert_claim c l) <-> x = c \/ In x l.
Proof.
  induction l as [|d l IH]; cbn [insert_claim].
  - cbn. intuition congruence.
  - destruct (number c <? number d)%N; cbn [In]; [intuition congruence|].
    rewrite IH. intuition congruence.
Qed.

Lemma in_sort_claims (x : claim) (l : list claim) :
  In x (sort_claims l) <-> In x l.
Proof.
  unfold sort_claims. induction l as [|c l IH]; cbn [fold_right].
  - tauto.
  - rewrite in_insert_claim, IH. cbn. intuition congruence.
Qed.

Lemma in_numbers_sort (n : N) (l : list claim) :
  In n (map number (sort_claims l)) <-> In n (map number l).
Proof.
  rewrite !in_map_iff. split; intros (x & Hx & Hin); exists x;
    (split; [assumption|]); apply in_sort_claims; assumption.
Qed.

Lemma insert_claim_sorted (c : claim) (l : list claim) :
  StronglySorted N.lt (map number l) ->
  ~ In (number c) (map number l) ->
  StronglySorted N.lt (map number (insert_claim c l)).
Proof.
  induction l as [|d l IH]; intros Hs Hn; cbn [insert_claim map].
  - constructor; constructor.
  - cbn [map] in Hs, Hn. inversion Hs as [|? ? Hs' Hall]; subst.
    destruct (N.ltb_spec (number c) (number d)) as [Hlt|Hge]; cbn [map].
    + constructor; [assumption|]. constructor; [assumption|].
      eapply Forall_impl; [|exact Hall]. cbn. intros; lia.
    + assert (Hdc : (number d < number c)%N).
      { assert (number d <> number c) by (intro He; apply Hn; left; exact He).
        lia. }
      constructor.
      * apply IH; [assumption|]. intro Hin. apply Hn. right. exact Hin.
      * apply Forall_forall. intros n Hin. apply in_map_iff in Hin.
        destruct Hin as (x & Hx & Hin). apply in_insert_claim in Hin.
        destruct Hin as [->|Hin]; [subst n; assumption|].
        rewrite Forall_forall in Hall. apply Hall. subst n.
        apply in_map. assumption.
Qed.

Lemma sort_claims_sorted (l : list claim) :
  NoDup (map number l) ->
  StronglySorted N.lt (map number (sort_claims l)).
Proof.
  induction l as [|c l IH]; intro Hnd.
  - constructor.
  - cbn [map] in Hnd. inversion Hnd as [|? ? Hn Hnd']; subst.
    change (sort_claims (c :: l)) with (insert_claim c (sort_claims l)).
    apply insert_claim_sorted; [apply IH; assumption|].
    rewrite in_numbers_sort. assumption.
Qed.

Lemma strictly_sorted_nodup (l : list N) :
  StronglySorted N.lt l -> NoDup l.
Proof.
  induction 1 as [|n l _ IH Hall]; constructor; [|assumption].
  intro Hin. rewrite Forall_forall in Hall. specialize (Hall n Hin). lia.
Qed.

Lemma seen_mem_spec (n : N) (seen : list N) :
  seen_mem n seen = true <-> In n seen.
Proof.
  unfold seen_mem. rewrite existsb_exists. split.
  - intros (x & Hin & Hx). apply N.eqb_eq in Hx. subst. assumption.
  - intro Hin. exists n. split; [assumption|apply N.eqb_refl].
Qed.

Lemma consider_invariant (st : cstate) (cand : string * string) :
  loop_invariant st -> loop_invariant (consider st cand).
Proof.
  intros (Hseen & Hnd & Hall). unfold consider, admissible.
  destruct (seen_mem (int_of (fst cand)) (snd st)) eqn:Hmem; cbn [negb andb];
    [repeat split; assumption|].
  destruct (N.leb_spec (int_of (fst cand)) 65); cbn [andb];
    [|repeat split; assumption].
  destruct (Nat.leb_spec 20 (len (tidy (snd cand)))); [|repeat split; assumption].
  unfold loop_invariant. cbn [fst snd]. rewrite map_app, rev_app_distr.
  cbn [map rev app number]. repeat split.
  - rewrite Hseen. reflexivity.
  - assert (Hnot : ~ In (int_of (fst cand)) (map number (fst st))).
    { intro Hin. apply in_rev in Hin. rewrite <- Hseen in Hin.
      apply seen_mem_spec in Hin. congruence. }
    clear - Hnd Hnot. induction (map number (fst st)) as [|x l IH].
    + cbn. constructor; [intros []|constructor].
    + cbn [app]. inversion Hnd; subst. constructor.
      * rewrite in_app_iff. cbn [In]. intros [Hin|[He|[]]]; [contradiction|].
        apply Hnot. left. symmetry. exact He.
      * apply IH; [assumption|]. intro Hin. apply Hnot. right. exact Hin.
  - apply Forall_app. split; [assumption|]. constructor; [|constructor].
    cbn [number text]. split; assumption.
Qed.

Lemma fold_consider_invariant (l : list (string * string)) (st : cstate) :
  loop_invariant st -> loop_invariant (fold_left consider l st).
Proof.
  revert st. induction l as [|c l IH]; intros st H; [exact H|].
  cbn [fold_left]. apply IH. apply consider_invariant. exact H.
Qed.

Lemma loop_invariant_start : loop_invariant ([], []).
Proof. repeat split; constructor. Qed.

Lemma existsb_number_rev (n : N) (l : list claim) :
  existsb (N.eqb n) (rev (map number l))
  = existsb (fun c => (n =? number c)%N) l.
Proof.
  induction l as [|c l IH]; [reflexivity|].
  cbn [map rev existsb]. rewrite existsb_app, IH. cbn [existsb].
  rewrite orb_false_r. apply orb_comm.
Qed.

(** C6, the claim as stated fails: the length that is tested is the one
    the text has after the trailing section headers were cut off.  The
    body below has 20 characters once white space is collapsed; the cut
    at "PCT" leaves 11 and the block is rejected. *)
Lemma twenty_characters_rejected :
  candidates "1. A method of PCT use." = [("1", "A method of PCT use.")]
  /\ len (collapsed "A method of PCT use.") = 20
  /\ tidy "A method of PCT use." = "A method of"
  /\ extract_claims "1. A method of PCT use." = [].
Proof. repeat split; vm_compute; reflexivity. Qed.

(** C6, amended.  A candidate block is accepted if and only if no block
    accepted before it in the run has its number, its number is at most
    65, and its text, after white space is collapsed and trailing
    section headers are cut off, has at least 20 characters; the claims
    returned are the blocks accepted.  A block numbered 66 is rejected,
    and of two bodies without a section header the one of 19 characters
    is rejected and the one of 20 characters accepted. *)
Theorem claim_admission :
  (forall (before : list (string * string)) (cand : string * string),
     let accepted := fst (fold_left consider before ([], [])) in
     let num := int_of (fst cand) in
     let txt := tidy (snd cand) in
     fst (fold_left consider (before ++ [cand]) ([], [])) =
       if negb (existsb (fun c => (num =? number c)%N) accepted)
          && (num <=? 65)%N && (20 <=? len txt)
       then (accepted ++ [Claim num txt (dependent txt)])%list
       else accepted)
  /\ (forall (text0 : string) (c : claim),
        In c (extract_claims text0) <->
        In c (fst (fold_left consider (candidates text0) ([], []))))
  /\ extract_claims "66. A method of all use." = []
  /\ extract_claims "1. A method of all use" = []
  /\ extract_claims "1. A method of all use."
     = [Claim 1 "A method of all use." false].
Proof.
  split; [|split; [|repeat split; vm_compute; reflexivity]].
  - intros before cand accepted num txt.
    rewrite fold_left_app. cbn [fold_left].
    pose proof (fold_consider_invariant before _ loop_invariant_start)
      as (Hseen & _ & _).
    unfold consider at 1. unfold admissible, seen_mem.
    rewrite Hseen, existsb_number_rev.
    fold num txt accepted.
    destruct (negb (existsb (fun c => (num =? number c)%N) accepted)
              && (num <=? 65)%N && (20 <=? len txt)); reflexivity.
  - intros text0 c. unfold extract_claims. apply in_sort_claims.
Qed.

(** C7, the claim as stated fails: a block labelled 0 is accepted, and
    its number is not positive. *)
Lemma claim_number_zero :
  extract_claims "0. A method of all use."
  = [Claim 0 "A method of all use." false].
Proof. vm_compute; reflexivity. Qed.

(** C7, amended.  The claims returned are in strictly ascending order of
    their numbers, so no number occurs twice, and every number is a
    natural number of at most 65. *)
Theorem claims_sorted_unique (text0 : string) :
  let numbers := map number (extract_claims text0) in
  StronglySorted N.lt numbers
  /\ NoDup numbers
  /\ Forall (fun n => (0 <= n <= 65)%N) numbers.
Proof.
  cbv zeta. unfold extract_claims.
  pose proof (fold_consider_invariant (candidates text0) _ loop_invariant_start)
    as (_ & Hnd & Hall).
  set (l := fst (fold_left consider (candidates text0) ([], []))) in *.
  assert (Hs : StronglySorted N.lt (map number (sort_claims l)))
    by (apply sort_claims_sorted; assumption).
  split; [assumption|]. split; [apply strictly_sorted_nodup; assumption|].
  apply Forall_forall. intros n Hin. apply (proj1 (in_numbers_sort _ _)) in Hin.
  apply in_map_iff in Hin. destruct Hin as (c & <- & Hin).
  rewrite Forall_forall in Hall. destruct (Hall c Hin). lia.
Qed.

End Extractor.

(* ================================================================== *)
(** ** Facts on texts *)

Section Texts.



End Texts.

(* ================================================================== *)
(** ** Substitution of the runs of a character class *)

Section Runs.

Variable p : ascii -> bool.
Variable lo : nat.
Hypothesis lo_positive : 1 <= lo.
Variable rep : string.

Lemma rep_loop_class (fuel cnt pos : nat) (s : string)
    (caps : list (nat * string)) :
  len s < fuel ->
  rep_loop (run (Chr p)) true lo None Some fuel cnt (MS pos s caps) =
  if lo <=? cnt + span p s
  then Some (MS (pos + span p s) (drop (span p s) s) caps)
  else None.
Proof.
  revert cnt pos s. induction fuel as [|fuel IH]; intros cnt pos s Hlen; [lia|].
  cbn [rep_loop below run ms_rest ms_pos ms_caps].
  destruct s as [|c t].
  - cbn [span drop]. rewrite !Nat.add_0_r. reflexivity.
  - cbn [span]. destruct (p c) eqn:Hc.
    + cbn [ms_pos]. rewrite (proj2 (Nat.ltb_lt pos (S pos))) by lia.
      rewrite IH by (cbn [len String.length] in Hlen; unfold len; lia).
      cbn [drop].
      replace (S cnt + span p t) with (cnt + S (span p t)) by lia.
      replace (S pos + span p t) with (pos + S (span p t)) by lia.
      destruct (Nat.leb_spec lo (cnt + S (span p t))); [reflexivity|].
      rewrite (proj2 (Nat.leb_gt lo cnt)) by lia. reflexivity.
    + cbn [drop]. rewrite !Nat.add_0_r. reflexivity.
Qed.

Lemma match_at_run (pos : nat) (s : string) :
  match_at (run_regex p lo) pos s =
  if lo <=? span p s then Some (RM pos (pos + span p s) []) else None.
Proof.
  unfold match_at, run_regex. cbn [run ms_rest].
  rewrite rep_loop_class by lia. cbn [Nat.add].
  destruct (lo <=? span p s); reflexivity.
Qed.

Lemma sub_run_position (whole : string) (pos : nat) (s : string) (skip : nat) :
  sub_from (run_regex p lo) (constant rep) whole pos s skip
  = squeeze_from p lo rep s skip.
Proof.
  unfold squeeze_from. generalize 0 as pos'. revert pos skip.
  induction s as [|c t IH]; intros pos skip pos'.
  - destruct skip; cbn [sub_from]; [|reflexivity].
    rewrite !match_at_run. cbn [span].
    rewrite (proj2 (Nat.leb_gt lo 0)) by lia. reflexivity.
  - destruct skip; cbn [sub_from]; [|apply IH].
    rewrite !match_at_run. destruct (lo <=? span p (String c t)).
    + cbn [m_end constant].
      assert (Hn : 1 <= span p (String c t) \/ span p (String c t) = 0) by lia.
      destruct Hn as [Hn|Hn].
      * rewrite (proj2 (Nat.eqb_neq (pos + span p (String c t)) pos)) by lia.
        rewrite (proj2 (Nat.eqb_neq (pos' + span p (String c t)) pos')) by lia.
        f_equal.
        replace (pos + span p (String c t) - pos - 1)
          with (pos' + span p (String c t) - pos' - 1) by lia.
        apply IH.
      * rewrite Hn, !Nat.add_0_r, !Nat.eqb_refl. f_equal. f_equal. apply IH.
    + f_equal. apply IH.
Qed.

Lemma squeeze_skip (s : string) (skip : nat) :
  skip <= len s ->
  squeeze_from p lo rep s skip = squeeze_from p lo rep (drop skip s) 0.
Proof.
  revert skip. induction s as [|c t IH]; intros skip Hs.
  - cbn in Hs. replace skip with 0 by lia. reflexivity.
  - destruct skip; [reflexivity|]. cbn [drop].
    unfold squeeze_from. cbn [sub_from]. rewrite sub_run_position.
    apply IH. cbn in Hs. unfold len. lia.
Qed.

Lemma span_le_len (s : string) : span p s <= len s.
Proof.
  induction s as [|c t IH]; cbn [span]; [cbn; lia|].
  destruct (p c); cbn; unfold len in *; lia.
Qed.

Lemma squeeze_empty : squeeze_from p lo rep EmptyString 0 = EmptyString.
Proof.
  unfold squeeze_from. cbn [sub_from]. rewrite match_at_run. cbn [span].
  rewrite (proj2 (Nat.leb_gt lo 0)) by lia. reflexivity.
Qed.

(** A character outside the class is copied. *)
Lemma squeeze_other (c : ascii) (t : string) :
  p c = false ->
  squeeze_from p lo rep (String c t) 0 = String c (squeeze_from p lo rep t 0).
Proof.
  intro Hc. unfold squeeze_from at 1. cbn [sub_from]. rewrite match_at_run.
  cbn [span]. rewrite Hc. rewrite (proj2 (Nat.leb_gt lo 0)) by lia.
  rewrite sub_run_position. reflexivity.
Qed.

(** A run of at least [lo] characters of the class is replaced. *)
Lemma squeeze_long_run (s : string) :
  lo <= span p s ->
  squeeze_from p lo rep s 0
  = rep ++ squeeze_from p lo rep (drop (span p s) s) 0.
Proof.
  intro Hn. destruct s as [|c t]; [cbn [span] in Hn; lia|].
  unfold squeeze_from at 1. cbn [sub_from]. rewrite match_at_run.
  rewrite (proj2 (Nat.leb_le _ _) Hn). cbn [m_end constant Nat.add].
  rewrite (proj2 (Nat.eqb_neq (span p (String c t)) 0)) by lia.
  rewrite sub_run_position. f_equal.
  pose proof (span_le_len (String c t)) as Hle. cbn [len String.length] in Hle.
  rewrite squeeze_skip by (unfold len; lia).
  replace (span p (String c t)) with (S (span p (String c t) - 0 - 1)) at 2
    by lia.
  reflexivity.
Qed.

(** A shorter run is copied. *)
Lemma squeeze_short_run (s : string) :
  span p s < lo ->
  squeeze_from p lo rep s 0
  = take (span p s) s ++ squeeze_from p lo rep (drop (span p s) s) 0.
Proof.
  induction s as [|c t IH]; intro Hn; [reflexivity|].
  cbn [span] in *. destruct (p c) eqn:Hc.
  - cbn [take drop append]. rewrite <- IH by lia.
    unfold squeeze_from at 1. cbn [sub_from]. rewrite match_at_run.
    cbn [span]. rewrite Hc. rewrite (proj2 (Nat.leb_gt _ _)) by lia.
    rewrite sub_run_position. reflexivity.
  - reflexivity.
Qed.

Lemma drop_span_head (s : string) :
  is_char p (first_char (drop (span p s) s)) = false.
Proof.
  induction s as [|c t IH]; [reflexivity|].
  cbn [span]. destruct (p c) eqn:Hc; [exact IH|].
  cbn. exact Hc.
Qed.

Lemma squeeze_head (s : string) :
  is_char p (first_char s) = false ->
  is_char p (first_char (squeeze_from p lo rep s 0)) = false.
Proof.
  destruct s as [|c t]; intro H.
  - rewrite squeeze_empty. reflexivity.
  - cbn in H. rewrite squeeze_other by assumption. cbn. assumption.
Qed.

Lemma append_assoc (x y z : string) : (x ++ y) ++ z = x ++ y ++ z.
Proof.
  induction x as [|c t IH]; [reflexivity|]. cbn [append]. f_equal. exact IH.
Qed.










End Runs.

(* ================================================================== *)
(** ** The last substitution of the repair *)

Section FinalCleanup.

Lemma collapse_spaces_squeeze (text0 : string) :
  collapse_spaces text0 = squeeze_from is_space 2 " " text0 0.
Proof.
  unfold collapse_spaces, re_sub.
  apply (sub_run_position is_space 2); lia.
Qed.

Lemma adjacent_spaces_cons (c : ascii) (s : string) :
  adjacent_spaces (String c s) =
  (is_space c && is_char is_space (first_char s)) || adjacent_spaces s.
Proof.
  destruct s as [|d t]; cbn [adjacent_spaces first_char is_char].
  - rewrite andb_false_r. reflexivity.
  - reflexivity.
Qed.

Lemma drop_span_shorter (p : ascii -> bool) (c : ascii) (t : string) :
  len (drop (span p (String c t)) (String c t)) <= len (String c t).
Proof.
  generalize (String c t) as s. intro s.
  induction s as [|d u IH]; cbn [span]; [cbn; lia|].
  destruct (p d); cbn [drop]; unfold len in *; cbn [String.length]; lia.
Qed.

Lemma squeeze_no_adjacent (n : nat) (s : string) :
  len s <= n ->
  adjacent_spaces (squeeze_from is_space 2 " " s 0) = false.
Proof.
  assert (H2 : 1 <= 2) by lia.
  revert s. induction n as [|n IH]; intros s Hlen.
  - destruct s; [|cbn in Hlen; lia]. rewrite squeeze_empty by lia. reflexivity.
  - destruct s as [|c t]; [rewrite squeeze_empty by lia; reflexivity|].
    assert (Ht : len t <= n) by (cbn in Hlen; unfold len; lia).
    destruct (is_space c) eqn:Hc.
    + assert (Hrest : len (drop (span is_space (String c t)) (String c t)) <= n).
      { cbn [span]. rewrite Hc. cbn [drop].
        destruct t as [|d u]; [cbn; lia|].
        pose proof (drop_span_shorter is_space d u). lia. }
      pose proof (drop_span_head is_space (String c t)) as Hhead.
      apply (squeeze_head is_space 2 H2 " ") in Hhead.
      destruct (Nat.le_gt_cases 2 (span is_space (String c t))) as [Hlong|Hshort].
      * rewrite squeeze_long_run by assumption.
        cbn [append]. rewrite adjacent_spaces_cons, Hhead, IH by assumption.
        reflexivity.
      * rewrite squeeze_short_run by assumption.
        assert (Hone : span is_space (String c t) = 1).
        { cbn [span] in *. rewrite Hc in *. lia. }
        rewrite Hone in *. cbn [take drop append] in *.
        rewrite adjacent_spaces_cons, Hhead, IH by assumption.
        rewrite andb_false_r. reflexivity.
    + rewrite squeeze_other by assumption.
      rewrite adjacent_spaces_cons, Hc, IH by assumption. reflexivity.
Qed.



End FinalCleanup.

(* ================================================================== *)
(** ** Texts a pattern cannot match in *)

Section Inert.





Lemma all_chars_app (p : ascii -> bool) (x y : string) :
  all_chars p (x ++ y) = all_chars p x && all_chars p y.
Proof.
  induction x as [|c t IH]; [reflexivity|].
  cbn [append all_chars]. rewrite IH, andb_assoc. reflexivity.
Qed.







End Inert.

(* ================================================================== *)
(** ** The normalizer on runs of line breaks *)

Section LineBreaks.

Lemma collapse_newlines_squeeze (s : string) :
  collapse_newlines s
  = squeeze_from (Ascii.eqb newline) 4 (nl ++ nl ++ nl) s 0.
Proof.
  unfold collapse_newlines, re_sub.
  apply (sub_run_position (Ascii.eqb newline) 4); lia.
Qed.







Lemma last_char_app (x y : string) :
  y <> EmptyString -> last_char (x ++ y) = last_char y.
Proof.
  intro Hy. induction x as [|c t IH]; [reflexivity|].
  cbn [append]. change (last_char (String c (t ++ y)))
    with (match t ++ y with EmptyString => Some c | _ => last_char (t ++ y) end).
  destruct (t ++ y) eqn:E; [|exact IH].
  destruct t; [cbn in E; congruence|discriminate].
Qed.




End LineBreaks.

(* ================================================================== *)
(** ** The figure numbers the repair writes *)

Section WrittenNumbers.

Lemma catalog_numbers :
  forallb (fun fig => N.leb 1 (num fig) && N.leb (num fig) 17) FIGURES = true.
Proof. vm_compute. reflexivity. Qed.

Lemma scores_from_catalog (bounded : string -> string -> bool) (cl : string)
    (c : N * nat) :
  In c (scores bounded cl) -> exists fig, In fig FIGURES /\ num fig = fst c.
Proof.
  unfold scores. intro H. apply in_flat_map in H.
  destruct H as (fig & Hfig & Hc). exists fig. split; [exact Hfig|].
  unfold entry_scores in Hc. apply in_flat_map in Hc.
  destruct Hc as (kw & _ & Hc).
  destruct (keyword_score bounded cl kw); [|destruct Hc].
  destruct Hc as [<-|[]]. reflexivity.
Qed.

(** X1.  The resolver returns the number of a figure of the catalog, a
    number between 1 and 17, whatever the window. *)
Theorem resolver_in_catalog (w : string) :
  (exists fig, In fig FIGURES /\ num fig = get_figure_number_from_context w)
  /\ (1 <= get_figure_number_from_context w <= 17)%N.
Proof.
  assert (H : exists fig, In fig FIGURES
                          /\ num fig = get_figure_number_from_context w).
  { unfold get_figure_number_from_context. rewrite resolver_pick.
    fold (scores space_bounded (lower w)).
    destruct (fold_pick_first_max (scores space_bounded (lower w)) (1%N, 0))
      as [[Hb _]|(pre & c & post & Hl & Hc & _)].
    - rewrite Hb. eexists. split; [left; reflexivity|reflexivity].
    - rewrite Hc. apply (scores_from_catalog space_bounded (lower w)).
      rewrite Hl. apply in_or_app. right. left. reflexivity. }
  split; [exact H|]. destruct H as (fig & Hin & <-).
  pose proof catalog_numbers as Hall. rewrite forallb_forall in Hall.
  specialize (Hall fig Hin). apply andb_true_iff in Hall.
  destruct Hall as [H1 H2]. apply N.leb_le in H1, H2. lia.
Qed.

Lemma resolver_range (w : string) :
  (1 <= get_figure_number_from_context w <= 17)%N.
Proof.
  unfold get_figure_number_from_context. rewrite resolver_pick.
  fold (scores space_bounded (lower w)).
  pose proof catalog_numbers as Hall. rewrite forallb_forall in Hall.
  destruct (fold_pick_first_max (scores space_bounded (lower w)) (1%N, 0))
    as [[Hb _]|(pre & c & post & Hl & Hc & _)].
  - rewrite Hb. cbn. lia.
  - rewrite Hc.
    destruct (scores_from_catalog space_bounded (lower w) c) as (fig & Hin & <-).
    + rewrite Hl. apply in_or_app. right. left. reflexivity.
    + specialize (Hall fig Hin). apply andb_true_iff in Hall.
      destruct Hall as [H1 H2]. apply N.leb_le in H1, H2. lia.
Qed.

(** X2.  The repair of "FIG. a and ." writes a second marker with a
    number between 1 and 17, and one that differs from the first unless
    the first is 17, where the increment stops. *)
Theorem fix_and_empty_pair (text0 : string) (m : rmatch) :
  let a := int_of (group m 1) in
  exists b : N,
    fix_and_empty text0 m
      = "FIG. " ++ of_int a ++ " and FIG. " ++ of_int b ++ "."
    /\ (1 <= b <= 17)%N
    /\ (b = a -> a = 17%N).
Proof.
  cbv zeta. unfold fix_and_empty.
  set (a := int_of (group m 1)).
  set (r := get_figure_number_from_context _).
  assert (Hr : (1 <= r <= 17)%N) by apply resolver_range.
  destruct (N.eqb_spec r a) as [He|Hne].
  - exists (N.min (a + 1) 17). split; [reflexivity|]. split; lia.
  - exists r. split; [reflexivity|]. split; [exact Hr|]. intro. congruence.
Qed.

(** X3.  Every other marker the repair writes from the context has a
    number between 1 and 17: after an empty reference, for a marker
    without a number, after a trailing phrase, and for an implicit
    reference unless a marker is near. *)
Theorem context_markers_in_range (text0 : string) (m : rmatch) (g : nat) :
  (exists n, (1 <= n <= 17)%N
             /\ context_replace g text0 m
                = rstrip (if g =? 0 then group0 text0 m else group m g)
                  ++ " FIG. " ++ of_int n ++ ".")
  /\ (exists n, (1 <= n <= 17)%N
                /\ fix_standalone_fig text0 m = "FIG. " ++ of_int n ++ ".")
  /\ (exists n, (1 <= n <= 17)%N
                /\ fix_trailing_implicit text0 m
                   = group m 1 ++ " FIG. " ++ of_int n ++ group m 2)
  /\ (exists n, (1 <= n <= 17)%N
                /\ fix_fig_without_number text0 m = "in FIG. " ++ of_int n)
  /\ (fix_implicit_reference text0 m = group0 text0 m
      \/ exists n, (1 <= n <= 17)%N
                   /\ fix_implicit_reference text0 m
                      = group m 1 ++ " FIG. " ++ of_int n ++ ", "
                        ++ lstrip (group m 2)).
Proof.
  repeat split.
  - eexists. split; [apply resolver_range|].
    unfold context_replace.
    destruct (ends_with " in" _); [reflexivity|].
    destruct (ends_with " to" _); reflexivity.
  - eexists. split; [apply resolver_range|]. reflexivity.
  - eexists. split; [apply resolver_range|]. reflexivity.
  - eexists. split; [apply resolver_range|]. reflexivity.
  - unfold fix_implicit_reference.
    destruct (contains "FIG" _); [left; reflexivity|].
    right. eexists. split; [apply resolver_range|]. reflexivity.
Qed.

Lemma lower_char_idempotent (c : ascii) :
  lower_char (lower_char c) = lower_char c.
Proof.
  destruct c as [[] [] [] [] [] [] [] []]; vm_compute; reflexivity.
Qed.

Lemma lower_idempotent (s : string) : lower (lower s) = lower s.
Proof.
  induction s as [|c t IH]; [reflexivity|].
  cbn [lower]. rewrite lower_char_idempotent, IH. reflexivity.
Qed.

(** X4.  The resolver does not look at the case of the window: a window
    and its lower-case form resolve to the same figure. *)
Theorem resolver_ignores_case (w : string) :
  get_figure_number_from_context (lower w)
  = get_figure_number_from_context w.
Proof.
  unfold get_figure_number_from_context.
  rewrite lower_idempotent. reflexivity.
Qed.

End WrittenNumbers.

(* ================================================================== *)
(** ** What the renderer receives *)

Section Renderer.

Lemma lstrip_head (s : string) :
  is_char is_space (first_char (lstrip s)) = false.
Proof.
  induction s as [|c t IH]; [reflexivity|].
  cbn [lstrip]. destruct (is_space c) eqn:Hc; [exact IH|].
  cbn. exact Hc.
Qed.

Lemma rstrip_head (s : string) :
  is_char is_space (first_char s) = false ->
  is_char is_space (first_char (rstrip s)) = false.
Proof.
  destruct s as [|c t]; [reflexivity|]. cbn [first_char is_char]. intro Hc.
  cbn [rstrip]. destruct (rstrip t); [rewrite Hc|]; cbn; exact Hc.
Qed.

Lemma rstrip_last (s : string) :
  is_char is_space (last_char (rstrip s)) = false.
Proof.
  induction s as [|c t IH]; [reflexivity|].
  cbn [rstrip]. destruct (rstrip t) as [|d u] eqn:E.
  - destruct (is_space c) eqn:Hc; [reflexivity|]. cbn. exact Hc.
  - exact IH.
Qed.

(** A stripped text neither begins nor ends with white space. *)
Lemma strip_ends (s : string) :
  is_char is_space (first_char (strip s)) = false
  /\ is_char is_space (last_char (strip s)) = false.
Proof.
  unfold strip. split; [apply rstrip_head, lstrip_head|apply rstrip_last].
Qed.

Lemma all_chars_lstrip (p : ascii -> bool) (s : string) :
  all_chars p s = true -> all_chars p (lstrip s) = true.
Proof.
  induction s as [|c t IH]; [reflexivity|].
  cbn [lstrip]. destruct (is_space c); [|tauto].
  cbn [all_chars]. rewrite andb_true_iff. intros [_ Ht]. auto.
Qed.

Lemma all_chars_rstrip (p : ascii -> bool) (s : string) :
  all_chars p s = true -> all_chars p (rstrip s) = true.
Proof.
  induction s as [|c t IH]; [reflexivity|].
  cbn [all_chars rstrip]. rewrite andb_true_iff. intros [Hc Ht].
  specialize (IH Ht). destruct (rstrip t).
  - destruct (is_space c); [reflexivity|]. cbn. rewrite Hc. reflexivity.
  - cbn [all_chars] in *. rewrite Hc. exact IH.
Qed.

Lemma all_chars_strip (p : ascii -> bool) (s : string) :
  all_chars p s = true -> all_chars p (strip s) = true.
Proof.
  intro H. unfold strip. apply all_chars_rstrip, all_chars_lstrip, H.
Qed.

(** X5.  The text the normalizer returns neither begins nor ends with a
    white-space character. *)
Theorem clean_text_stripped (text0 : string) :
  is_char is_space (first_char (clean_text text0)) = false
  /\ is_char is_space (last_char (clean_text text0)) = false.
Proof. unfold clean_text. apply strip_ends. Qed.

Lemma all_chars_replace_from (p : ascii -> bool) (old new s : string)
    (skip : nat) :
  all_chars p new = true -> all_chars p s = true ->
  all_chars p (replace_from old new s skip) = true.
Proof.
  intros Hnew. revert skip. induction s as [|c t IH]; intros skip Hs.
  - destruct skip; reflexivity.
  - cbn [all_chars] in Hs. apply andb_true_iff in Hs. destruct Hs as [Hc Ht].
    destruct skip; cbn [replace_from]; [|auto].
    destruct (starts_with old (String c t)).
    + rewrite all_chars_app, Hnew. cbn. auto.
    + cbn [all_chars]. rewrite Hc. cbn. auto.
Qed.

Lemma all_chars_intersperse (p : ascii -> bool) (new s : string) :
  all_chars p new = true -> all_chars p s = true ->
  all_chars p (intersperse new s) = true.
Proof.
  intros Hnew. induction s as [|c t IH]; intro Hs.
  - cbn [intersperse]. rewrite all_chars_app, Hnew. reflexivity.
  - cbn [all_chars] in Hs. apply andb_true_iff in Hs. destruct Hs as [Hc Ht].
    cbn [intersperse]. rewrite all_chars_app, Hnew. cbn [all_chars andb].
    rewrite Hc. cbn. auto.
Qed.

(** A replacement keeps a class of characters that holds its new text. *)
Lemma all_chars_replace (p : ascii -> bool) (old new s : string) :
  all_chars p new = true -> all_chars p s = true ->
  all_chars p (replace old new s) = true.
Proof.
  intros Hnew Hs. unfold replace. destruct old.
  - apply all_chars_intersperse; assumption.
  - apply all_chars_replace_from; assumption.
Qed.

(** After the replacement of a character by a text without it the
    character is gone. *)
Lemma replace_char_gone (c : ascii) (new s : string) :
  all_chars (fun x => negb (Ascii.eqb c x)) new = true ->
  all_chars (fun x => negb (Ascii.eqb c x))
            (replace (String c EmptyString) new s) = true.
Proof.
  intro Hnew. unfold replace. induction s as [|d t IH]; [reflexivity|].
  cbn [replace_from]. unfold starts_with. cbn [after_prefix len String.length].
  destruct (Ascii.eqb c d) eqn:E.
  - cbn [Nat.sub]. rewrite all_chars_app, Hnew. exact IH.
  - cbn [all_chars]. rewrite E. exact IH.
Qed.

Lemma all_chars_ascii_only (p : ascii -> bool) (s : string) :
  all_chars p s = true -> all_chars p (ascii_only s) = true.
Proof.
  induction s as [|c t IH]; [reflexivity|].
  cbn [all_chars ascii_only]. rewrite andb_true_iff. intros [Hc Ht].
  destruct (is_ascii c); [cbn [all_chars]; rewrite Hc|]; auto.
Qed.

Lemma ascii_only_ascii (s : string) : all_chars is_ascii (ascii_only s) = true.
Proof.
  induction s as [|c t IH]; [reflexivity|].
  cbn [ascii_only]. destruct (is_ascii c) eqn:Hc; [|exact IH].
  cbn [all_chars]. rewrite Hc. exact IH.
Qed.

Lemma all_chars_and (p q : ascii -> bool) (s : string) :
  all_chars (fun c => p c && q c) s = all_chars p s && all_chars q s.
Proof.
  induction s as [|c t IH]; [reflexivity|].
  cbn [all_chars]. rewrite IH.
  destruct (p c), (q c), (all_chars p t), (all_chars q t); reflexivity.
Qed.

Lemma clean_for_pdf_plain (text0 : string) :
  all_chars markup_free (clean_for_pdf text0) = true.
Proof.
  unfold clean_for_pdf. destruct text0 as [|c0 t0]; [reflexivity|].
  cbv zeta. set (t := fix_symbols _).
  unfold markup_free.
  rewrite !all_chars_and. repeat (apply andb_true_iff; split).
  - apply all_chars_strip, ascii_only_ascii.
  - apply all_chars_strip, all_chars_ascii_only.
    apply all_chars_replace; [reflexivity|].
    apply (replace_char_gone "<" "&lt;"). reflexivity.
  - apply all_chars_strip, all_chars_ascii_only.
    apply (replace_char_gone ">" "&gt;"). reflexivity.
Qed.


End Renderer.

(* ================================================================== *)
(** ** The sections the segmenter returns *)

Section Segmenter.

Lemma dict_get_in (d : dict) (k v : string) :
  dict_get d k = Some v -> In (k, v) d.
Proof.
  induction d as [|[k' v'] d IH]; [discriminate|].
  cbn [dict_get]. destruct (String.eqb_spec k k') as [->|].
  - intro H. inversion H. left. reflexivity.
  - intro H. right. auto.
Qed.

Lemma dict_get_none (d : dict) (k : string) :
  dict_get d k = None -> ~ In k (map fst d).
Proof.
  induction d as [|[k' v'] d IH]; [intros _ []|].
  cbn [dict_get map fst In]. destruct (String.eqb_spec k k') as [->|Hne].
  - discriminate.
  - intros H [He|Hin]; [congruence|]. exact (IH H Hin).
Qed.

Lemma dict_set_keys (d : dict) (k v : string) :
  map fst (dict_set d k v)
  = if dict_mem d k then map fst d else (map fst d ++ [k])%list.
Proof.
  unfold dict_mem. induction d as [|[k' v'] d IH]; [reflexivity|].
  cbn [dict_set dict_get]. destruct (String.eqb_spec k k') as [->|Hne].
  - reflexivity.
  - cbn [map fst]. rewrite IH. destruct (dict_get d k); reflexivity.
Qed.

Lemma dict_set_nodup (d : dict) (k v : string) :
  NoDup (map fst d) -> NoDup (map fst (dict_set d k v)).
Proof.
  intro H. rewrite dict_set_keys. unfold dict_mem.
  destruct (dict_get d k) eqn:E; [exact H|].
  apply dict_get_none in E.
  clear v. induction (map fst d) as [|x l IH].
  - constructor; [intros []|constructor].
  - inversion H; subst. cbn [app]. constructor.
    + rewrite in_app_iff. cbn [In]. intros [Hin|[He|[]]]; [contradiction|].
      apply E. left. symmetry. exact He.
    + apply IH; [assumption|]. intro Hin. apply E. right. exact Hin.
Qed.

Lemma dict_set_forall (P : string * string -> Prop) (d : dict) (k v : string) :
  Forall P d -> P (k, v) -> Forall P (dict_set d k v).
Proof.
  intros Hd Hkv. induction Hd as [|[k' v'] d Hx Hd IH]; cbn [dict_set].
  - constructor; [exact Hkv|constructor].
  - destruct (String.eqb k k'); constructor; assumption.
Qed.

Lemma find_marker_role (markers : list (list regex * string))
    (line key : string) :
  find_marker markers line = Some key -> In key (map snd markers).
Proof.
  induction markers as [|[pattern k] markers IH]; [discriminate|].
  cbn [find_marker map snd In].
  destruct (re_match _ _); [destruct (_ <? 120)|]; intro H;
    [inversion H; left; reflexivity| |]; right; auto.
Qed.

Lemma first_char_app (x y : string) :
  x <> EmptyString -> first_char (x ++ y) = first_char x.
Proof. destruct x; [congruence|reflexivity]. Qed.

Lemma append_nonempty (x y : string) :
  y <> EmptyString -> x ++ y <> EmptyString.
Proof. destruct x; [trivial|discriminate]. Qed.

Lemma nonempty_spec (s : string) : nonempty s = true <-> s <> EmptyString.
Proof.
  unfold nonempty. destruct (String.eqb_spec s EmptyString); cbn.
  - split; [discriminate|congruence].
  - split; [intros _; assumption|reflexivity].
Qed.

Lemma stripped_section_ok (k s : string) :
  role k -> strip s <> EmptyString -> section_ok (k, strip s).
Proof.
  intros Hk Hs. destruct (strip_ends s) as [Hf Hl].
  repeat split; assumption.
Qed.

Lemma flush_at_heading_ok (st : pstate) :
  segmenter_invariant st ->
  NoDup (map fst (flush_at_heading st))
  /\ Forall section_ok (flush_at_heading st).
Proof.
  intros (Hnd & Hall & Hrole). unfold flush_at_heading.
  destruct (content st); [split; assumption|].
  set (txt := strip _).
  destruct (negb (String.eqb txt "")) eqn:Htxt; cbn [andb];
    [|split; assumption].
  assert (Hne : txt <> EmptyString).
  { destruct (String.eqb_spec txt ""); [discriminate|assumption]. }
  destruct (negb (dict_mem (sections st) (current st))
            || String.eqb (current st) "claims"); [|split; assumption].
  split; [apply dict_set_nodup; assumption|].
  apply dict_set_forall; [assumption|].
  unfold dict_mem. destruct (dict_get (sections st) (current st)) as [v|] eqn:E.
  - apply dict_get_in in E. rewrite Forall_forall in Hall.
    destruct (Hall _ E) as (_ & Hv & Hf & _). cbn [fst snd] in *.
    destruct (strip_ends (join_lines (s :: l))) as [_ Hl]. fold txt in Hl.
    repeat split; cbn [fst snd].
    + exact Hrole.
    + intro H. destruct v; [congruence|discriminate].
    + rewrite first_char_app by exact Hv. exact Hf.
    + rewrite last_char_app, last_char_app; auto.
      apply append_nonempty. exact Hne.
  - cbn [append]. apply stripped_section_ok; assumption.
Qed.

Lemma flush_at_end_ok (st : pstate) :
  segmenter_invariant st ->
  NoDup (map fst (flush_at_end st)) /\ Forall section_ok (flush_at_end st).
Proof.
  intros (Hnd & Hall & Hrole). unfold flush_at_end.
  destruct (content st); [split; assumption|].
  set (txt := strip _).
  destruct (negb (String.eqb txt "")) eqn:Htxt; cbn [andb];
    [|split; assumption].
  destruct (negb (dict_mem (sections st) (current st))); [|split; assumption].
  split; [apply dict_set_nodup; assumption|].
  apply dict_set_forall; [assumption|].
  apply stripped_section_ok; [exact Hrole|].
  fold txt. destruct (String.eqb_spec txt ""); [discriminate|assumption].
Qed.

Lemma parse_line_invariant (st : pstate) (line : string) :
  segmenter_invariant st -> segmenter_invariant (parse_line st line).
Proof.
  intro H. unfold parse_line.
  destruct (find_marker SECTION_MARKERS line) as [found|] eqn:E.
  - destruct (flush_at_heading_ok st H) as [Hnd Hall].
    repeat split; cbn [sections current]; try assumption.
    right. exact (find_marker_role _ _ _ E).
  - exact H.
Qed.

Lemma parse_lines_invariant (lines : list string) (st : pstate) :
  segmenter_invariant st ->
  segmenter_invariant (fold_left parse_line lines st).
Proof.
  revert st. induction lines as [|l lines IH]; intros st H; [exact H|].
  cbn [fold_left]. apply IH, parse_line_invariant, H.
Qed.

(** X7.  Whatever the text, the segmenter returns every role at most
    once, every key is the preamble or the role of a marker, and no
    section is empty or begins or ends with white space. *)
Theorem parse_sections_well_formed (text0 : string) :
  NoDup (map fst (parse_sections text0))
  /\ Forall section_ok (parse_sections text0).
Proof.
  unfold parse_sections. apply flush_at_end_ok, parse_lines_invariant.
  repeat split; [constructor|constructor|left; reflexivity].
Qed.

Lemma split_lines_nonempty (s : string) : split_lines s <> [].
Proof.
  destruct s as [|c t]; [discriminate|]. cbn [split_lines].
  destruct (Ascii.eqb c newline); [discriminate|].
  destruct (split_lines t); discriminate.
Qed.

(** The lines of a text, joined again, are the text. *)
Lemma join_split_lines (s : string) : join_lines (split_lines s) = s.
Proof.
  induction s as [|c t IH]; [reflexivity|].
  cbn [split_lines]. pose proof (split_lines_nonempty t) as Hne.
  destruct (Ascii.eqb_spec c newline) as [->|_].
  - destruct (split_lines t) as [|l ls]; [congruence|].
    cbn [join_lines append]. cbn [join_lines] in IH. rewrite IH. reflexivity.
  - destruct (split_lines t) as [|l ls]; [congruence|].
    rewrite <- IH. destruct ls; reflexivity.
Qed.

Lemma parse_lines_no_heading (lines : list string) (st : pstate) :
  forallb (fun line =>
             match find_marker SECTION_MARKERS line with
             | None => true
             | Some _ => false
             end) lines = true ->
  fold_left parse_line lines st
  = PS (sections st) (current st) (content st ++ lines)%list.
Proof.
  revert st. induction lines as [|l lines IH]; intros st H.
  - cbn [fold_left]. rewrite app_nil_r. destruct st; reflexivity.
  - cbn [forallb] in H. apply andb_true_iff in H. destruct H as [Hl Hls].
    cbn [fold_left]. rewrite IH by exact Hls. unfold parse_line.
    destruct (find_marker SECTION_MARKERS l); [discriminate|].
    cbn [sections current content]. rewrite <- app_assoc. reflexivity.
Qed.

(** X8.  A text without a heading line is returned whole, stripped, as
    the preamble; and nothing is returned when it is white space only. *)
Theorem parse_sections_without_heading (text0 : string) :
  no_heading text0 = true ->
  parse_sections text0
  = if nonempty (strip text0) then [("preamble", strip text0)] else [].
Proof.
  intro H. unfold parse_sections. cbv zeta.
  rewrite parse_lines_no_heading by exact H.
  unfold flush_at_end. cbn [content sections current app].
  pose proof (split_lines_nonempty text0) as Hne.
  destruct (split_lines text0) as [|l ls] eqn:E; [congruence|].
  rewrite <- E, join_split_lines. cbn [dict_mem dict_get negb andb].
  rewrite andb_true_r. unfold nonempty. reflexivity.
Qed.

Lemma parse_sections_without_heading_witness :
  no_heading ("A first line" ++ nl ++ " and a second. ") = true
  /\ parse_sections ("A first line" ++ nl ++ " and a second. ")
     = [("preamble", "A first line" ++ nl ++ " and a second.")].
Proof.
  split; [vm_compute; reflexivity|].
  exact (parse_sections_without_heading
           ("A first line" ++ nl ++ " and a second. ") eq_refl).
Defined.

(** X9.  A line of 120 characters or more, white space at its ends not
    counted, is no heading, whatever it begins with. *)
Theorem long_line_no_heading (markers : list (list regex * string))
    (line : string) :
  120 <= len (strip line) -> find_marker markers line = None.
Proof.
  intro H. induction markers as [|[pattern key] markers IH]; [reflexivity|].
  cbn [find_marker]. rewrite (proj2 (Nat.ltb_ge _ _) H).
  destruct (re_match _ _); exact IH.
Qed.

Lemma long_line_no_heading_witness :
  120 <= len (strip ("CLAIMS " ++ replicate 120 "x"))
  /\ find_marker SECTION_MARKERS ("CLAIMS " ++ replicate 120 "x") = None.
Proof.
  assert (H : 120 <= len (strip ("CLAIMS " ++ replicate 120 "x")))
    by (vm_compute; lia).
  split; [exact H|].
  exact (long_line_no_heading SECTION_MARKERS _ H).
Defined.

End Segmenter.

(* ================================================================== *)
(** ** The claims of the document *)

Section DocumentClaims.

Lemma consider_flag (st : cstate) (cand : string * string) :
  Forall (fun c => is_dependent c = dependent (text c)) (fst st) ->
  Forall (fun c => is_dependent c = dependent (text c))
         (fst (consider st cand)).
Proof.
  intro H. unfold consider. destruct (admissible _ _ _); [|exact H].
  cbn [fst]. apply Forall_app. split; [exact H|].
  constructor; [reflexivity|constructor].
Qed.

Lemma fold_consider_flag (l : list (string * string)) (st : cstate) :
  Forall (fun c => is_dependent c = dependent (text c)) (fst st) ->
  Forall (fun c => is_dependent c = dependent (text c))
         (fst (fold_left consider l st)).
Proof.
  revert st. induction l as [|c l IH]; intros st H; [exact H|].
  cbn [fold_left]. apply IH, consider_flag, H.
Qed.

Lemma length_insert_claim (c : claim) (l : list claim) :
  List.length (insert_claim c l) = S (List.length l).
Proof.
  induction l as [|d l IH]; [reflexivity|].
  cbn [insert_claim]. destruct (number c <? number d)%N; cbn [List.length];
    [reflexivity|]. rewrite IH. reflexivity.
Qed.

Lemma length_sort_claims (l : list claim) :
  List.length (sort_claims l) = List.length l.
Proof.
  induction l as [|c l IH]; [reflexivity|].
  change (sort_claims (c :: l)) with (insert_claim c (sort_claims l)).
  rewrite length_insert_claim, IH. reflexivity.
Qed.

(** Numbers without repetition, none above 65, are at most 66. *)
Lemma few_numbers (l : list N) :
  NoDup l -> Forall (fun n => (n <= 65)%N) l -> List.length l <= 66.
Proof.
  intros Hnd Hall.
  change 66 with (List.length (map N.of_nat (seq 0 66))).
  apply NoDup_incl_length; [exact Hnd|].
  intros n Hin. rewrite Forall_forall in Hall. specialize (Hall n Hin).
  apply in_map_iff. exists (N.to_nat n). split; [apply N2Nat.id|].
  apply in_seq. lia.
Qed.

Lemma extract_claims_ok (text0 : string) : claims_ok (extract_claims text0).
Proof.
  unfold extract_claims.
  pose proof (fold_consider_invariant (candidates text0) _ loop_invariant_start)
    as (_ & Hnd & Hall).
  pose proof (fold_consider_flag (candidates text0) ([], [])
                (Forall_nil _)) as Hflag.
  set (l := fst (fold_left consider (candidates text0) ([], []))) in *.
  assert (Hs : StronglySorted N.lt (map number (sort_claims l)))
    by (apply sort_claims_sorted; exact Hnd).
  rewrite Forall_forall in Hall, Hflag.
  split; [exact Hs|]. split.
  - apply Forall_forall. intros c Hin.
    apply (proj1 (in_sort_claims c l)) in Hin.
    destruct (Hall c Hin). auto.
  - rewrite length_sort_claims, <- (length_map number).
    apply few_numbers; [exact Hnd|].
    apply Forall_forall. intros n Hin. apply in_map_iff in Hin.
    destruct Hin as (c & <- & Hin). apply (Hall c Hin).
Qed.

(** X10.  Every claim extracted has a text of at least 20 characters and
    a number of at most 65, and is marked dependent exactly when its
    text refers back to a claim; and no text yields more than 66
    claims. *)
Theorem extract_claims_bounds (text0 : string) :
  Forall (fun c => (number c <= 65)%N /\ 20 <= len (text c)
                   /\ is_dependent c = dependent (text c))
         (extract_claims text0)
  /\ List.length (extract_claims text0) <= 66.
Proof. destruct (extract_claims_ok text0) as (_ & H1 & H2). auto. Qed.

(** X11.  The claims the document is built from, those of the whole
    text or those of its claims section, are in strictly ascending
    order of their numbers, within the same bounds, and at most 66; and
    they are those of the whole text when these are 10 or more. *)
Theorem select_claims_ok (full_text : string) :
  claims_ok (select_claims full_text)
  /\ (select_claims full_text = extract_claims full_text
      \/ List.length (extract_claims full_text) < 10).
Proof.
  unfold select_claims. cbv zeta.
  destruct (Nat.ltb_spec (List.length (extract_claims full_text)) 10)
    as [Hlt|Hge]; cbn [andb].
  - destruct (dict_mem _ _);
      [destruct (dict_get _ _)|]; (split; [apply extract_claims_ok|]); auto.
  - split; [apply extract_claims_ok|]. left. reflexivity.
Qed.

End DocumentClaims.

(* ================================================================== *)
(** ** The figures of the document *)

Section DocumentFigures.

Lemma shown_as_described (n : nat) :
  n <= 17 ->
  map fig_def (seq 0 n) = map figure_entry (firstn n FIGURES).
Proof.
  intro H. do 18 (destruct n as [|n]; [vm_compute; reflexivity|]). lia.
Qed.

Lemma catalog_texts_clean :
  forallb (fun fig =>
             String.eqb (clean_for_pdf (label fig ++ " - " ++ title fig))
                        (label fig ++ " - " ++ title fig)
             && String.eqb
                  (clean_for_pdf
                     (label fig ++ " - " ++ title fig ++ ": " ++ desc fig))
                  (label fig ++ " - " ++ title fig ++ ": " ++ desc fig))
          FIGURES = true.
Proof. vm_compute. reflexivity. Qed.

(** X12.  The document describes between 1 and 17 figures, all 17 when
    there is no figure file; with figure files, the figures it shows
    are the figures it describes, in the same order and all from the
    catalog (the fallback entry is never used); and the cleaning leaves
    the caption and the description of every catalog figure as they
    are. *)
Theorem figures_consistent (files : nat) :
  1 <= num_figs files <= 17
  /\ List.length (described_figures files) = num_figs files
  /\ num_figs 0 = 17
  /\ shown_figures (S files) = described_figures (S files)
  /\ Forall (fun fig =>
               clean_for_pdf (label fig ++ " - " ++ title fig)
               = label fig ++ " - " ++ title fig
               /\ clean_for_pdf
                    (label fig ++ " - " ++ title fig ++ ": " ++ desc fig)
                  = label fig ++ " - " ++ title fig ++ ": " ++ desc fig)
            FIGURES.
Proof.
  assert (Hn : 1 <= num_figs files <= 17)
    by (unfold num_figs; destruct files; lia).
  split; [exact Hn|]. split.
  - unfold described_figures. rewrite length_map, length_firstn.
    change (List.length FIGURES) with 17. lia.
  - split; [reflexivity|]. split.
    + unfold shown_figures, described_figures.
      assert (Hs : num_figs (S files) <= 17)
        by (unfold num_figs; lia).
      replace (Nat.min (S files) (num_figs (S files)))
        with (num_figs (S files)) by (unfold num_figs; lia).
      apply shown_as_described. exact Hs.
    + pose proof catalog_texts_clean as H. rewrite forallb_forall in H.
      apply Forall_forall. intros fig Hin. specialize (H fig Hin).
      apply andb_true_iff in H. destruct H as [H1 H2].
      apply String.eqb_eq in H1, H2. auto.
Qed.

End DocumentFigures.

(* ================================================================== *)
(** ** The paragraphs of the document *)

Section DocumentParagraphs.

Lemma blank_line_needs_spaces (pos : nat) (s : string) :
  adjacent_spaces s = false -> match_at blank_line pos s = None.
Proof.
  intro H. unfold match_at, blank_line, star, ch. cbn [run ms_rest].
  destruct s as [|c t]; [reflexivity|].
  destruct (Ascii.eqb_spec newline c) as [<-|]; [|reflexivity].
  rewrite adjacent_spaces_cons in H. apply orb_false_iff in H.
  destruct H as [H _]. change (is_space newline) with true in H.
  cbn [andb] in H. cbn [ms_pos ms_rest ms_caps len String.length].
  destruct t as [|d u]; [reflexivity|]. cbn [first_char is_char] in H.
  unfold ws. cbn [rep_loop below run ms_rest Nat.leb]. rewrite H.
  destruct (Ascii.eqb_spec newline d) as [<-|]; [discriminate H|reflexivity].
Qed.

Lemma adjacent_spaces_tail (c : ascii) (t : string) :
  adjacent_spaces (String c t) = false -> adjacent_spaces t = false.
Proof.
  rewrite adjacent_spaces_cons. intro H. apply orb_false_iff in H. tauto.
Qed.

Lemma split_without_blank_line (s : string) (pos : nat) :
  adjacent_spaces s = false -> split_from blank_line pos s 0 = [s].
Proof.
  revert pos. induction s as [|c t IH]; intros pos H; [reflexivity|].
  cbn [split_from]. rewrite blank_line_needs_spaces by exact H.
  rewrite IH by (exact (adjacent_spaces_tail c t H)). reflexivity.
Qed.

(** X13.  The paragraph separator, a line break, white space and a line
    break, never matches a repaired text: split at it, the output of the
    repair is one piece. *)
Theorem repaired_text_one_piece (text0 : string) :
  re_split blank_line (fix_all_figure_references text0)
  = [fix_all_figure_references text0].
Proof.
  unfold re_split. apply split_without_blank_line.
  unfold fix_all_figure_references. rewrite collapse_spaces_squeeze.
  apply (squeeze_no_adjacent (len (repair_stages text0))). lia.
Qed.

Lemma all_chars_str_split (p : ascii -> bool) (sep s : string) (skip : nat) :
  all_chars p s = true ->
  Forall (fun piece => all_chars p piece = true) (str_split_from sep s skip).
Proof.
  revert skip. induction s as [|c t IH]; intros skip Hs.
  - destruct skip; repeat constructor.
  - cbn [all_chars] in Hs. apply andb_true_iff in Hs. destruct Hs as [Hc Ht].
    destruct skip; cbn [str_split_from]; [|auto].
    destruct (starts_with sep (String c t)).
    + constructor; [reflexivity|auto].
    + specialize (IH 0 Ht). destruct (str_split_from sep t 0) as [|q qs].
      * repeat constructor. cbn. rewrite Hc. reflexivity.
      * inversion IH; subst. constructor; [|assumption].
        cbn [all_chars]. rewrite Hc. assumption.
Qed.

Variable paragraph_ok : string -> bool.

Lemma sentences_plain (cleaned : string) :
  all_chars markup_free cleaned = true ->
  Forall (fun p => p <> EmptyString /\ all_chars markup_free p = true)
         (sentences paragraph_ok cleaned).
Proof.
  intro H. unfold sentences, str_split.
  pose proof (all_chars_str_split markup_free ". " cleaned 0 H) as Hp.
  induction Hp as [|s l Hs _ IH]; [constructor|].
  cbn [flat_map]. apply Forall_app. split; [|exact IH].
  destruct (nonempty (strip s)); [|constructor].
  destruct (paragraph_ok _); [|constructor].
  constructor; [|constructor]. split.
  - apply append_nonempty. discriminate.
  - rewrite all_chars_app, all_chars_strip by exact Hs. reflexivity.
Qed.

(** X14.  Every paragraph text [make_paragraphs] hands to the renderer is
    not empty, has only ASCII characters and has neither "<" nor ">",
    whether the renderer accepts the texts or not; and no content gives
    no paragraph. *)
Theorem make_paragraphs_plain (content0 : string) :
  Forall (fun p => p <> EmptyString /\ all_chars markup_free p = true)
         (make_paragraphs paragraph_ok content0)
  /\ make_paragraphs paragraph_ok EmptyString = [].
Proof.
  split; [|reflexivity].
  unfold make_paragraphs. destruct content0 as [|c0 t0]; [constructor|].
  cbv zeta. induction (re_split blank_line _) as [|p ps IH]; [constructor|].
  cbn [flat_map]. apply Forall_app. split; [|exact IH].
  unfold paragraphs_of. cbv zeta.
  destruct (nonempty (strip p) && (5 <? len (strip p))); [|constructor].
  destruct (nonempty (clean_for_pdf (strip p))) eqn:Hne; [|constructor].
  destruct (paragraph_ok _).
  - constructor; [|constructor]. split.
    + apply nonempty_spec. exact Hne.
    + apply clean_for_pdf_plain.
  - apply sentences_plain, clean_for_pdf_plain.
Qed.

End DocumentParagraphs.

(* ================================================================== *)
(** ** Markers through the whole repair *)

Section WholeRepair.

Lemma in_numbers_below (n : N) (bound : nat) :
  (n < N.of_nat bound)%N -> In n (numbers_below bound).
Proof.
  intro H. unfold numbers_below. apply in_map_iff.
  exists (N.to_nat n). split; [apply N2Nat.id|]. apply in_seq. lia.
Qed.

Lemma markers_validated_below_200 :
  forallb (fun n =>
             String.eqb (fix_all_figure_references ("FIG. " ++ of_int n))
                        ("FIG. " ++ of_int (validate_num n))
             && String.eqb (fix_all_figure_references ("fig." ++ of_int n))
                           ("FIG. " ++ of_int (validate_num n)))
          (numbers_below 200) = true.
Proof. vm_compute. reflexivity. Qed.

Lemma figure_words_validated_below_100 :
  forallb (fun n =>
             String.eqb (fix_all_figure_references ("Figure " ++ of_int n))
                        ("FIG. " ++ of_int (validate_num n)))
          (numbers_below 100) = true.
Proof. vm_compute. reflexivity. Qed.

(** X15.  A marker alone is brought to the canonical form with its
    number validated: for every number n below 200 the texts "FIG. n"
    and "fig.n" are repaired to "FIG. " with the validated number, and
    so is "Figure n" for n below 100. *)
Theorem lone_marker_validated (n : N) :
  (n < 200)%N ->
  fix_all_figure_references ("FIG. " ++ of_int n)
    = "FIG. " ++ of_int (validate_num n)
  /\ fix_all_figure_references ("fig." ++ of_int n)
     = "FIG. " ++ of_int (validate_num n)
  /\ ((n < 100)%N ->
      fix_all_figure_references ("Figure " ++ of_int n)
      = "FIG. " ++ of_int (validate_num n)).
Proof.
  intro H. pose proof markers_validated_below_200 as Ha.
  rewrite forallb_forall in Ha.
  specialize (Ha n (in_numbers_below n 200 H)).
  apply andb_true_iff in Ha. destruct Ha as [H1 H2].
  apply String.eqb_eq in H1, H2. split; [exact H1|]. split; [exact H2|].
  intro H'. pose proof figure_words_validated_below_100 as Hb.
  rewrite forallb_forall in Hb.
  specialize (Hb n (in_numbers_below n 100 H')).
  apply String.eqb_eq in Hb. exact Hb.
Qed.

Lemma lone_marker_validated_witness :
  (99 < 200)%N
  /\ fix_all_figure_references ("FIG. " ++ of_int 99)
     = "FIG. " ++ of_int (validate_num 99).
Proof.
  split; [reflexivity|].
  exact (proj1 (lone_marker_validated 99 eq_refl)).
Defined.

Lemma references_rewritten :
  forallb (fun n =>
             String.eqb
               (fix_all_figure_references ("as shown in FIG. " ++ of_int n))
               ("as shown in FIG. 1. " ++ of_int n))
          (numbers_below 18) = true.
Proof. vm_compute. reflexivity. Qed.

(** X16.  A complete reference does not pass the repair unchanged: for
    every n up to 17 the text "as shown in FIG. n" comes out as
    "as shown in FIG. 1. n", with a number from the context put before
    its own. *)
Theorem complete_reference_rewritten (n : N) :
  (n <= 17)%N ->
  fix_all_figure_references ("as shown in FIG. " ++ of_int n)
  = "as shown in FIG. 1. " ++ of_int n.
Proof.
  intro H. pose proof references_rewritten as Ha.
  rewrite forallb_forall in Ha.
  specialize (Ha n (in_numbers_below n 18 ltac:(lia))).
  apply String.eqb_eq in Ha. exact Ha.
Qed.

Lemma complete_reference_rewritten_witness :
  (5 <= 17)%N
  /\ fix_all_figure_references ("as shown in FIG. " ++ of_int 5)
     = "as shown in FIG. 1. " ++ of_int 5.
Proof.
  split; [discriminate|].
  exact (complete_reference_rewritten 5 ltac:(discriminate)).
Defined.

End WholeRepair.

(* ================================================================== *)
(** ** The symbol table *)

Section Symbols.

Lemma starts_with_head (old s : string) (c : ascii) :
  starts_with (String c old) s = true -> first_char s = Some c.
Proof.
  unfold starts_with. destruct s as [|d t]; cbn [after_prefix]; [discriminate|].
  destruct (Ascii.eqb_spec c d) as [->|]; [reflexivity|discriminate].
Qed.

Lemma starts_with_chars (p : ascii -> bool) (old s : string) :
  all_chars p s = true -> starts_with old s = true -> all_chars p old = true.
Proof.
  unfold starts_with. revert s. induction old as [|c old IH]; intros s Hs H;
    [reflexivity|].
  destruct s as [|d t]; cbn [after_prefix] in H; [discriminate|].
  cbn [all_chars] in Hs. apply andb_true_iff in Hs. destruct Hs as [Hd Ht].
  destruct (Ascii.eqb_spec c d) as [->|]; [|discriminate].
  cbn [all_chars]. rewrite Hd. exact (IH t Ht H).
Qed.

(** A text is left as it is by the replacement of a text that has a
    character the first text has not. *)
Lemma replace_absent (p : ascii -> bool) (old new s : string) :
  all_chars p old = false -> all_chars p s = true ->
  replace old new s = s.
Proof.
  intros Hold Hs. unfold replace. destruct old as [|c old];
    [discriminate|].
  induction s as [|d t IH]; [reflexivity|].
  cbn [replace_from].
  destruct (starts_with (String c old) (String d t)) eqn:E.
  - rewrite (starts_with_chars p _ _ Hs E) in Hold. discriminate.
  - cbn [all_chars] in Hs. apply andb_true_iff in Hs. destruct Hs as [_ Ht].
    rewrite (IH Ht). reflexivity.
Qed.

(** X17.  No multiplication, division or plus-minus sign is left in a
    text after [fix_symbols]. *)
Theorem fix_symbols_signs_gone (text0 : string) :
  all_chars (fun c => negb (Ascii.eqb (ascii_of_N 215) c)
                      && negb (Ascii.eqb (ascii_of_N 247) c)
                      && negb (Ascii.eqb (ascii_of_N 177) c))
            (fix_symbols text0) = true.
Proof.
  unfold fix_symbols, syms. cbn [fold_left fst snd].
  rewrite !all_chars_and. repeat (apply andb_true_iff; split).
  - do 5 (apply all_chars_replace; [reflexivity|]).
    apply (replace_char_gone (ascii_of_N 215) "*"). reflexivity.
  - do 4 (apply all_chars_replace; [reflexivity|]).
    apply (replace_char_gone (ascii_of_N 247) "/"). reflexivity.
  - do 3 (apply all_chars_replace; [reflexivity|]).
    apply (replace_char_gone (ascii_of_N 177) "+/-"). reflexivity.
Qed.

(** X18.  A text of ASCII characters without a double quote is left as
    it is by [fix_symbols]. *)
Theorem fix_symbols_plain_unchanged (text0 : string) :
  all_chars no_symbol text0 = true -> fix_symbols text0 = text0.
Proof.
  intro H. unfold fix_symbols, syms. cbn [fold_left fst snd].
  repeat (rewrite (replace_absent no_symbol _ _ text0)
            by (reflexivity || exact H)).
  reflexivity.
Qed.

Lemma fix_symbols_plain_unchanged_witness :
  all_chars no_symbol "a <= b, x -> y" = true
  /\ fix_symbols "a <= b, x -> y" = "a <= b, x -> y".
Proof.
  split; [reflexivity|].
  exact (fix_symbols_plain_unchanged "a <= b, x -> y" eq_refl).
Defined.

End Symbols.

(* ================================================================== *)
(** ** What a match captures *)

Section Captures.

Variable whole : string.

Lemma ending_tail (c : ascii) (t : string) :
  ending (String c t) whole -> ending t whole.
Proof.
  intros (a & Ha). exists (a ++ String c EmptyString).
  rewrite Ha, append_assoc. reflexivity.
Qed.

Lemma take_drop (k : nat) (s : string) : s = take k s ++ drop k s.
Proof.
  revert s. induction k as [|k IH]; intro s; [destruct s; reflexivity|].
  destruct s as [|c t]; [reflexivity|]. cbn [take drop append].
  rewrite <- IH. reflexivity.
Qed.

Lemma within_take (k : nat) (s : string) :
  ending s whole -> within (take k s) whole.
Proof.
  intros (a & Ha). exists a, (drop k s). rewrite <- take_drop. exact Ha.
Qed.

Lemma after_prefix_app (g s t : string) :
  after_prefix g s = Some t -> s = g ++ t.
Proof.
  revert s. induction g as [|c g IH]; intros s H.
  - cbn in H. inversion H. reflexivity.
  - destruct s as [|d u]; cbn [after_prefix] in H; [discriminate|].
    destruct (Ascii.eqb_spec c d) as [->|]; [|discriminate].
    cbn [append]. rewrite (IH u H). reflexivity.
Qed.

Lemma ending_after_prefix (g s t : string) :
  after_prefix g s = Some t -> ending s whole -> ending t whole.
Proof.
  intros H (a & Ha). exists (a ++ g).
  rewrite Ha, (after_prefix_app g s t H), append_assoc. reflexivity.
Qed.

(** The loop of a repetition reaches what follows it in a state on the
    text, when its body does. *)
Lemma rep_loop_on_text (body : mstate -> cont -> option mstate)
    (greedy : bool) (lo : nat) (hi : option nat) (k : cont) (e : mstate) :
  (forall s k', on_text whole s -> body s k' = Some e ->
                exists s', on_text whole s' /\ k' s' = Some e) ->
  forall fuel cnt s,
    on_text whole s ->
    rep_loop body greedy lo hi k fuel cnt s = Some e ->
    exists s', on_text whole s' /\ k s' = Some e.
Proof.
  intro Hbody. induction fuel as [|fuel IH]; intros cnt s Hs H;
    [discriminate|].
  cbn [rep_loop] in H.
  set (more := if below cnt hi then _ else None) in H.
  set (stop := if lo <=? cnt then k s else None) in H.
  assert (Hmore : more = Some e ->
                  exists s', on_text whole s' /\ k s' = Some e).
  { unfold more. intro Hr. destruct (below cnt hi); [|discriminate].
    destruct (Hbody _ _ Hs Hr) as (s1 & Hs1 & H1).
    destruct (ms_pos s <? ms_pos s1); [|discriminate].
    exact (IH _ _ Hs1 H1). }
  assert (Hstop : stop = Some e ->
                  exists s', on_text whole s' /\ k s' = Some e).
  { unfold stop. intro Hr. destruct (lo <=? cnt); [|discriminate].
    exists s. split; assumption. }
  clearbody more stop.
  destruct greedy.
  - destruct more as [x|]; [inversion H; subst; auto|auto].
  - destruct stop as [x|]; [inversion H; subst; auto|auto].
Qed.

(** A match goes on, after a pattern, from a state on the text: what
    is left ends the text and what was captured lies within it. *)
Lemma run_on_text (r : regex) (s : mstate) (k : cont) (e : mstate) :
  on_text whole s -> run r s k = Some e ->
  exists s', on_text whole s' /\ k s' = Some e.
Proof.
  revert s k. induction r as [|p|a IHa b IHb|a IHa b IHb|g lo hi a IHa
                             |n a IHa|n|positive a IHa| | |];
    intros s k Hs H; cbn [run] in H.
  - exists s. split; assumption.
  - destruct Hs as [Hend Hcaps]. destruct (ms_rest s) as [|c t] eqn:E;
      [discriminate|].
    destruct (p c); [|discriminate].
    eexists. split; [|exact H]. split; cbn [ms_rest ms_caps];
      [exact (ending_tail c t Hend)|exact Hcaps].
  - destruct (IHa _ _ Hs H) as (s1 & Hs1 & H1). exact (IHb _ _ Hs1 H1).
  - destruct (run a s k) as [x|] eqn:E.
    + inversion H; subst. exact (IHa _ _ Hs E).
    + exact (IHb _ _ Hs H).
  - apply (rep_loop_on_text (run a) g lo hi k e) in H;
      [exact H| |exact Hs].
    intros s0 k' Hs0 H0. exact (IHa _ _ Hs0 H0).
  - destruct (IHa _ _ Hs H) as (s1 & Hs1 & H1).
    eexists. split; [|exact H1]. destruct Hs1 as [Hend1 Hcaps1].
    split; cbn [ms_rest ms_caps]; [exact Hend1|].
    constructor; [|exact Hcaps1]. cbn [snd].
    apply within_take. exact (proj1 Hs).
  - destruct (cap_lookup n (ms_caps s)) as [g|]; [|discriminate].
    destruct (after_prefix g (ms_rest s)) as [t|] eqn:E; [|discriminate].
    eexists. split; [|exact H]. destruct Hs as [Hend Hcaps].
    split; cbn [ms_rest ms_caps];
      [exact (ending_after_prefix _ _ _ E Hend)|exact Hcaps].
  - exists s. split; [exact Hs|].
    destruct (run a s Some); destruct positive; (discriminate || exact H).
  - exists s. split; [exact Hs|]. destruct (ms_pos s =? 0);
      (discriminate || exact H).
  - exists s. split; [exact Hs|]. destruct (ms_rest s);
      (discriminate || exact H).
  - exists s. split; [exact Hs|]. destruct (ms_rest s) as [|c [|d u]];
      try discriminate; [exact H|].
    destruct (Ascii.eqb c newline); (discriminate || exact H).
Qed.

(** Every group of a match found in a text lies within the text. *)
Lemma match_at_within (r : regex) (pos : nat) (s : string) (m : rmatch) :
  ending s whole -> match_at r pos s = Some m ->
  Forall (fun ng => within (snd ng) whole) (m_caps m).
Proof.
  intros Hs H. unfold match_at in H.
  destruct (run r (MS pos s []) Some) as [e|] eqn:E; [|discriminate].
  inversion H; subst. cbn [m_caps].
  assert (H0 : on_text whole (MS pos s []))
    by (split; [exact Hs|constructor]).
  destruct (run_on_text r _ _ e H0 E) as (s' & Hs' & He).
  inversion He; subst. exact (proj2 Hs').
Qed.

End Captures.

(* ================================================================== *)
(** ** Substitutions that keep what a scan accepts *)

Section SafeSubstitution.

Context {Q : Type}.
Variable allowed : Q -> ascii -> bool.
Variable next : Q -> ascii -> Q.
Variable reset : Q.

(** The state [reset] accepts what any state accepts. *)
Hypothesis reset_weakest :
  forall q s, safe allowed next q s = true -> safe allowed next reset s = true.

Lemma safe_app (q : Q) (x y : string) :
  safe allowed next q (x ++ y)
  = safe allowed next q x && safe allowed next (state_after next q x) y.
Proof.
  revert q. induction x as [|c t IH]; intro q; [reflexivity|].
  cbn [append safe state_after]. rewrite IH, andb_assoc. reflexivity.
Qed.

Lemma safe_within (q : Q) (g whole : string) :
  within g whole -> safe allowed next q whole = true ->
  safe allowed next reset g = true.
Proof.
  intros (a & b & ->) H. rewrite safe_app in H.
  apply andb_true_iff in H. destruct H as [_ H].
  apply reset_weakest in H. rewrite safe_app in H.
  apply andb_true_iff in H. tauto.
Qed.

Variable r : regex.
Variable repl : string -> rmatch -> string.
Variable whole : string.

(** What is put for a match is accepted in every state, and leaves a
    state in which what [reset] accepts is accepted. *)
Hypothesis repl_safe :
  forall (q : Q) (m : rmatch) (y : string),
    Forall (fun ng => within (snd ng) whole) (m_caps m) ->
    safe allowed next reset y = true ->
    safe allowed next q (repl whole m ++ y) = true.

Lemma sub_from_safe (s : string) :
  forall (q : Q) (skip pos : nat),
    ending s whole -> safe allowed next q s = true ->
    safe allowed next (match skip with 0 => q | S _ => reset end)
       (sub_from r repl whole pos s skip) = true.
Proof.
  induction s as [|c t IH]; intros q skip pos Hend Hs.
  - destruct skip; cbn [sub_from]; [|reflexivity].
    destruct (match_at r pos EmptyString) as [m|] eqn:E; [|reflexivity].
    apply repl_safe; [|reflexivity].
    exact (match_at_within whole r pos _ m Hend E).
  - pose proof (ending_tail whole c t Hend) as Hend'.
    pose proof Hs as Hs0. cbn [safe] in Hs. apply andb_true_iff in Hs.
    destruct Hs as [Hc Ht].
    pose proof (reset_weakest _ _ Ht) as Htr.
    assert (Hskip : forall k pos',
              safe allowed next reset (sub_from r repl whole pos' t k)
              = true).
    { intros k pos'. specialize (IH reset k pos' Hend' Htr).
      destruct k; exact IH. }
    destruct skip; cbn [sub_from]; [|apply Hskip].
    destruct (match_at r pos (String c t)) as [m|] eqn:E.
    + pose proof (match_at_within whole r pos _ m Hend E) as Hm.
      destruct (m_end m =? pos).
      * apply repl_safe; [exact Hm|].
        apply reset_weakest in Hs0. cbn [safe] in Hs0 |- *.
        apply andb_true_iff in Hs0. destruct Hs0 as [Hc0 Ht0].
        rewrite Hc0. exact (IH _ 0 _ Hend' Ht0).
      * apply repl_safe; [exact Hm|apply Hskip].
    + cbn [safe]. rewrite Hc. exact (IH _ 0 _ Hend' Ht).
Qed.

(** A substitution keeps what the scan accepts of the whole text. *)
Lemma re_sub_safe (q : Q) :
  safe allowed next q whole = true ->
  safe allowed next q (re_sub r repl whole) = true.
Proof.
  intro H. unfold re_sub.
  exact (sub_from_safe whole q 0 0 (ex_intro _ EmptyString eq_refl) H).
Qed.

End SafeSubstitution.

(* ================================================================== *)
(** ** The white space the normalizer leaves *)

Section NormalizedSpace.

Lemma cap_lookup_within (whole : string) (n : nat)
    (caps : list (nat * string)) (g : string) :
  Forall (fun ng => within (snd ng) whole) caps ->
  cap_lookup n caps = Some g -> within g whole.
Proof.
  induction 1 as [|[k h] caps Hh _ IH]; [discriminate|].
  cbn [cap_lookup]. destruct (n =? k); [|exact IH].
  intro H. inversion H; subst. exact Hh.
Qed.

Lemma ending_lstrip (s : string) : ending (lstrip s) s.
Proof.
  induction s as [|c t IH]; [exists EmptyString; reflexivity|].
  cbn [lstrip]. destruct (is_space c); [|exists EmptyString; reflexivity].
  destruct IH as (a & Ha). exists (String c a). cbn [append].
  rewrite <- Ha. reflexivity.
Qed.

Lemma rstrip_prefix (s : string) : exists b, s = rstrip s ++ b.
Proof.
  induction s as [|c t (b & Hb)]; [exists EmptyString; reflexivity|].
  cbn [rstrip]. destruct (rstrip t) as [|d u] eqn:E.
  - destruct (is_space c).
    + exists (String c t). reflexivity.
    + exists t. reflexivity.
  - exists b. cbn [append] in *. rewrite <- Hb. reflexivity.
Qed.

Lemma within_strip (s : string) : within (strip s) s.
Proof.
  unfold strip. destruct (ending_lstrip s) as (a & Ha).
  destruct (rstrip_prefix (lstrip s)) as (b & Hb).
  exists a, b. rewrite <- Hb. exact Ha.
Qed.

(** What is put for a doubled section number, a number of the text in
    brackets, is accepted where the two brackets are accepted in every
    state and lead to the state [reset]. *)
Lemma section_number_safe {Q : Type} (allowed : Q -> ascii -> bool)
    (next : Q -> ascii -> Q) (reset : Q) (whole : string) :
  (forall q s, safe allowed next q s = true ->
               safe allowed next reset s = true) ->
  (forall q, allowed q "("%char = true /\ next q "("%char = reset) ->
  (forall q, allowed q ")"%char = true /\ next q ")"%char = reset) ->
  forall q0, safe allowed next q0 whole = true ->
  forall (q : Q) (m : rmatch) (y : string),
    Forall (fun ng => within (snd ng) whole) (m_caps m) ->
    safe allowed next reset y = true ->
    safe allowed next q (("(" ++ group m 1 ++ ")") ++ y) = true.
Proof.
  intros Hweak Hl Hr q0 Hwhole q m y Hm Hy.
  assert (Hg : safe allowed next reset (group m 1) = true).
  { unfold group. destruct (cap_lookup 1 (m_caps m)) as [g|] eqn:E;
      [|reflexivity].
    apply (safe_within allowed next reset Hweak q0 g whole);
      [exact (cap_lookup_within whole 1 _ g Hm E)|exact Hwhole]. }
  cbn [append safe]. destruct (Hl q) as [-> ->]. cbn [andb].
  rewrite append_assoc, safe_app, Hg. cbn [andb append safe].
  destruct (Hr (state_after next reset (group m 1))) as [-> ->].
  exact Hy.
Qed.

(** *** No tab and no two spaces *)

Lemma blank_weakest (q : bool) (s : string) :
  safe blank_allowed blank_next q s = true ->
  safe blank_allowed blank_next false s = true.
Proof.
  destruct s as [|c t]; [reflexivity|]. cbn [safe].
  unfold blank_allowed, blank_next. destruct q; [|tauto].
  destruct (Ascii.eqb tab c), (Ascii.eqb " " c); cbn; (discriminate || tauto).
Qed.

Lemma blank_after_other (q : bool) (s : string) :
  is_char is_blank (first_char s) = false ->
  safe blank_allowed blank_next false s = true ->
  safe blank_allowed blank_next q s = true.
Proof.
  destruct s as [|c t]; [reflexivity|]. cbn [first_char is_char safe].
  unfold blank_allowed, blank_next, is_blank. rewrite (Ascii.eqb_sym c " ").
  rewrite (Ascii.eqb_sym c tab).
  destruct (Ascii.eqb " " c), (Ascii.eqb tab c), q; cbn;
    (discriminate || tauto).
Qed.

Lemma collapse_blanks_squeeze (s : string) :
  collapse_blanks s
  = squeeze_from is_blank 1 " " s 0.
Proof.
  unfold collapse_blanks, re_sub.
  apply (sub_run_position is_blank 1).
  lia.
Qed.

Lemma squeeze_single_spaced (n : nat) (s : string) :
  len s <= n ->
  single_spaced
    (squeeze_from is_blank 1 " " s 0)
  = true.
Proof.
  assert (H1 : 1 <= 1) by lia. unfold single_spaced.
  revert s. induction n as [|n IH]; intros s Hlen.
  - destruct s; [|cbn in Hlen; lia]. rewrite squeeze_empty by lia. reflexivity.
  - destruct s as [|c t]; [rewrite squeeze_empty by lia; reflexivity|].
    assert (Ht : len t <= n) by (cbn in Hlen; unfold len; lia).
    destruct (is_blank c) eqn:Hc.
    + assert (Hrest :
                len (drop (span is_blank (String c t)) (String c t)) <= n).
      { cbn [span]. rewrite Hc. cbn [drop].
        destruct t as [|d u]; [cbn; lia|].
        pose proof (drop_span_shorter is_blank d u). lia. }
      pose proof (drop_span_head is_blank (String c t)) as Hhead.
      apply (squeeze_head is_blank 1 H1 " ") in Hhead.
      assert (Hspan : 1 <= span is_blank (String c t))
        by (cbn [span]; rewrite Hc; lia).
      rewrite squeeze_long_run by assumption.
      cbn [append safe]. cbn [blank_allowed blank_next andb].
      change (Ascii.eqb tab " ") with false.
      change (Ascii.eqb " " " ") with true. cbn [negb andb].
      apply blank_after_other; [exact Hhead|]. apply IH. exact Hrest.
    + rewrite squeeze_other by assumption. cbn [safe].
      unfold is_blank in Hc. apply orb_false_iff in Hc.
      destruct Hc as [Hs Ht'].
      unfold blank_allowed, blank_next.
      rewrite (Ascii.eqb_sym tab c), (Ascii.eqb_sym " " c), Hs, Ht'.
      cbn. apply IH. exact Ht.
Qed.

Lemma single_spaced_plain (q : bool) (s : string) :
  safe blank_allowed blank_next q s = true ->
  all_chars (fun c => negb (Ascii.eqb tab c)) s = true
  /\ contains "  " s = false.
Proof.
  revert q. induction s as [|c t IH]; intros q H; [split; reflexivity|].
  cbn [safe] in H. apply andb_true_iff in H. destruct H as [Hc Ht].
  destruct (IH _ Ht) as [IH1 IH2]. unfold blank_allowed in Hc.
  apply andb_true_iff in Hc. destruct Hc as [Hc1 Hc2].
  split; [cbn [all_chars]; rewrite Hc1; exact IH1|].
  cbn [contains]. rewrite IH2, orb_false_r.
  unfold starts_with. cbn [after_prefix].
  destruct (Ascii.eqb_spec " " c) as [<-|]; [|reflexivity].
  destruct t as [|d u]; [reflexivity|].
  cbn [safe] in Ht. apply andb_true_iff in Ht. destruct Ht as [Hd _].
  unfold blank_allowed, blank_next in Hd.
  change (Ascii.eqb " " " ") with true in Hd.
  destruct (Ascii.eqb " " d); [|reflexivity].
  rewrite andb_false_r in Hd. discriminate.
Qed.

(** *** No four line breaks *)

Lemma break_monotone (s : string) :
  forall q q', q <= q' ->
    safe break_allowed break_next q' s = true ->
    safe break_allowed break_next q s = true.
Proof.
  induction s as [|c t IH]; intros q q' Hq H; [reflexivity|].
  cbn [safe] in *. apply andb_true_iff in H. destruct H as [Hc Ht].
  unfold break_allowed, break_next in *.
  destruct (Ascii.eqb newline c); cbn [andb negb] in *.
  - destruct (Nat.leb_spec 3 q'); [discriminate|].
    rewrite (proj2 (Nat.leb_gt 3 q)) by lia. cbn.
    apply (IH (S q) (S q')); [lia|exact Ht].
  - exact Ht.
Qed.

Lemma break_weakest (q : nat) (s : string) :
  safe break_allowed break_next q s = true ->
  safe break_allowed break_next 0 s = true.
Proof. apply break_monotone. lia. Qed.

Lemma break_after_other (q : nat) (s : string) :
  is_char (Ascii.eqb newline) (first_char s) = false ->
  safe break_allowed break_next 0 s = true ->
  safe break_allowed break_next q s = true.
Proof.
  destruct s as [|c t]; [reflexivity|]. cbn [first_char is_char safe].
  unfold break_allowed, break_next. intros ->. cbn. tauto.
Qed.

Lemma breaks_then_other (n q : nat) (x : string) :
  q + n <= 3 ->
  is_char (Ascii.eqb newline) (first_char x) = false ->
  safe break_allowed break_next 0 x = true ->
  safe break_allowed break_next q (replicate n newline ++ x) = true.
Proof.
  revert q. induction n as [|n IH]; intros q Hq Hx H.
  - apply break_after_other; assumption.
  - cbn [replicate append safe]. unfold break_allowed at 1.
    change (break_next q newline) with (S q).
    rewrite Ascii.eqb_refl. rewrite (proj2 (Nat.leb_gt 3 q)) by lia.
    cbn [andb negb]. apply IH; [lia|assumption|assumption].
Qed.

Lemma take_span_breaks (s : string) :
  take (span (Ascii.eqb newline) s) s
  = replicate (span (Ascii.eqb newline) s) newline.
Proof.
  induction s as [|c t IH]; [reflexivity|]. cbn [span].
  destruct (Ascii.eqb_spec newline c) as [<-|]; [|reflexivity].
  cbn [take replicate]. rewrite IH. reflexivity.
Qed.

Lemma squeeze_few_breaks (n : nat) (s : string) :
  len s <= n ->
  few_breaks (squeeze_from (Ascii.eqb newline) 4 (nl ++ nl ++ nl) s 0) = true.
Proof.
  assert (H4 : 1 <= 4) by lia. unfold few_breaks.
  revert s. induction n as [|n IH]; intros s Hlen.
  - destruct s; [|cbn in Hlen; lia]. rewrite squeeze_empty by lia. reflexivity.
  - destruct s as [|c t]; [rewrite squeeze_empty by lia; reflexivity|].
    assert (Ht : len t <= n) by (cbn in Hlen; unfold len; lia).
    destruct (Ascii.eqb newline c) eqn:Hc.
    + assert (Hrest :
                len (drop (span (Ascii.eqb newline) (String c t))
                       (String c t)) <= n).
      { cbn [span]. rewrite Hc. cbn [drop].
        destruct t as [|d u]; [cbn; lia|].
        pose proof (drop_span_shorter (Ascii.eqb newline) d u). lia. }
      pose proof (drop_span_head (Ascii.eqb newline) (String c t)) as Hhead.
      apply (squeeze_head (Ascii.eqb newline) 4 H4 (nl ++ nl ++ nl)) in Hhead.
      specialize (IH _ Hrest).
      destruct (Nat.le_gt_cases 4 (span (Ascii.eqb newline) (String c t)))
        as [Hlong|Hshort].
      * rewrite squeeze_long_run by assumption.
        change (nl ++ nl ++ nl) with (replicate 3 newline).
        apply breaks_then_other; [lia|exact Hhead|exact IH].
      * rewrite squeeze_short_run by assumption.
        rewrite take_span_breaks.
        apply breaks_then_other; [lia|exact Hhead|exact IH].
    + rewrite squeeze_other by assumption. cbn [safe].
      unfold break_allowed, break_next. rewrite Hc. cbn.
      apply IH. exact Ht.
Qed.

Lemma few_breaks_plain (q : nat) (s : string) :
  safe break_allowed break_next q s = true ->
  contains (replicate 4 newline) s = false.
Proof.
  revert q. induction s as [|c t IH]; intros q H; [reflexivity|].
  pose proof H as H0. cbn [safe] in H. apply andb_true_iff in H.
  destruct H as [_ Ht]. cbn [contains]. rewrite (IH _ Ht), orb_false_r.
  unfold starts_with. cbn [replicate after_prefix].
  destruct (Ascii.eqb_spec newline c) as [<-|]; [|reflexivity].
  destruct t as [|c1 t]; [reflexivity|].
  destruct (Ascii.eqb_spec newline c1) as [<-|]; [|reflexivity].
  destruct t as [|c2 t]; [reflexivity|].
  destruct (Ascii.eqb_spec newline c2) as [<-|]; [|reflexivity].
  destruct t as [|c3 t]; [reflexivity|].
  destruct (Ascii.eqb_spec newline c3) as [<-|]; [|reflexivity].
  cbn [safe] in H0. unfold break_allowed, break_next in H0.
  rewrite !Ascii.eqb_refl in H0. cbn [Nat.leb andb negb] in H0.
  rewrite !andb_false_r in H0. discriminate.
Qed.

(** *** The normalizer *)

Lemma clean_text_scans (text0 : string) :
  single_spaced (clean_text text0) = true
  /\ few_breaks (clean_text text0) = true.
Proof.
  unfold clean_text, single_spaced, few_breaks. cbv zeta.
  set (t1 := remove_artifacts text0).
  assert (H2 : safe blank_allowed blank_next false (collapse_blanks t1) = true).
  { rewrite collapse_blanks_squeeze.
    apply (squeeze_single_spaced (len t1)). lia. }
  set (t2 := collapse_blanks t1) in *.
  assert (H3 : safe blank_allowed blank_next false (collapse_newlines t2)
               = true).
  { unfold collapse_newlines.
    apply (re_sub_safe blank_allowed blank_next false blank_weakest);
      [|exact H2].
    intros q m y _ Hy. unfold constant, nl. cbn [append safe].
    unfold blank_allowed at 1 2 3, blank_next at 1 2 3.
    change (Ascii.eqb tab newline) with false.
    change (Ascii.eqb " " newline) with false.
    rewrite !andb_false_r. exact Hy. }
  assert (H3' : safe break_allowed break_next 0 (collapse_newlines t2) = true).
  { rewrite collapse_newlines_squeeze.
    apply (squeeze_few_breaks (len t2)). lia. }
  set (t3 := collapse_newlines t2) in *.
  assert (H4 : safe blank_allowed blank_next false
                 (fix_dup_section_numbers t3) = true).
  { unfold fix_dup_section_numbers.
    apply (re_sub_safe blank_allowed blank_next false blank_weakest);
      [|exact H3].
    refine (section_number_safe blank_allowed blank_next false t3
              blank_weakest _ _ false H3);
      intro q; destruct q; split; reflexivity. }
  assert (H4' : safe break_allowed break_next 0
                  (fix_dup_section_numbers t3) = true).
  { unfold fix_dup_section_numbers.
    apply (re_sub_safe break_allowed break_next 0 break_weakest);
      [|exact H3'].
    refine (section_number_safe break_allowed break_next 0 t3
              break_weakest _ _ 0 H3');
      intro q; split; reflexivity. }
  set (t4 := fix_dup_section_numbers t3) in *.
  split.
  - exact (safe_within blank_allowed blank_next false blank_weakest false
             (strip t4) t4 (within_strip t4) H4).
  - exact (safe_within break_allowed break_next 0 break_weakest 0
             (strip t4) t4 (within_strip t4) H4').
Qed.

(** X19.  The text the normalizer returns has no tab, no two spaces next
    to each other and no four line breaks in a row. *)
Theorem clean_text_white_space (text0 : string) :
  all_chars (fun c => negb (Ascii.eqb tab c)) (clean_text text0) = true
  /\ contains "  " (clean_text text0) = false
  /\ contains (replicate 4 newline) (clean_text text0) = false.
Proof.
  destruct (clean_text_scans text0) as [H1 H2].
  destruct (single_spaced_plain false _ H1) as [Ha Hb].
  split; [exact Ha|]. split; [exact Hb|].
  exact (few_breaks_plain 0 _ H2).
Qed.

End NormalizedSpace.

(* ================================================================== *)
(** ** Texts the repair leaves alone *)

Section Blocked.








End Blocked.

(* ================================================================== *)
(** ** Blank lines in the repair *)

Section BlankLines.





End BlankLines.
